(** * pipip: encoding binary integer programs into CNF

    A shallow embedding of [ipsolver.py] (the encoder [encode_ilp_to_sat],
    [clauses_to_dimacs], [decode_solution], [solve_ilp] and [main]) and the
    properties of it that the specification states.

    Python integers are unbounded, hence [Z]; Python lists are [list]s, read
    with stdpp's lookup and written with stdpp's insert.  An exception is a
    value of [exn] carried by [Raise]. *)

From stdpp Require Import base list list_numbers strings pretty gmap.

Local Open Scope Z_scope.

(** ** Data model *)

(** A literal is an integer, a clause a list of literals, the matrix [A] a
    list of rows.  The rows of [A] are distinct list objects, as
    [parse_ilp_file] and a nested list display build them. *)
Abbreviation clause := (list Z).
Abbreviation matrix := (list (list Z)).

Inductive exn : Type :=
| IndexError
| ValueError
| AttributeError
| OtherError.

Inductive result (X : Type) : Type :=
| Ok (x : X)
| Raise (e : exn).
Arguments Ok {X} x.
Arguments Raise {X} e.

Definition is_ok {X} (r : result X) : bool :=
  match r with Ok _ => true | Raise _ => false end.

(** [range(lo, hi)], empty when [hi <= lo]. *)
Definition range (lo hi : Z) : list Z := seqZ lo (hi - lo).

(** [sum(abs(coef) for coef in coeffs)] *)
Definition sum_abs (coeffs : list Z) : Z :=
  foldr (λ coef acc, Z.abs coef + acc) 0 coeffs.

(** ** The local name [coeffs]

    [coeffs = A[constraint_num]] binds [coeffs] to the row object itself;
    the comprehension [[-c for c in coeffs]] rebinds it to a new list.  The
    item assignment [coeffs[i] = ...] writes through whichever it is. *)
Inductive coeffs_ref : Type :=
| RowOf (constraint_num : nat)
| Fresh (l : list Z).

Definition deref (A : matrix) (r : coeffs_ref) : list Z :=
  match r with
  | RowOf c => A !!! c
  | Fresh l => l
  end.

Definition setitem (A : matrix) (r : coeffs_ref) (i : nat) (x : Z)
  : matrix * coeffs_ref :=
  match r with
  | RowOf c => (<[c := <[i := x]> (A !!! c)]> A, RowOf c)
  | Fresh l => (A, Fresh (<[i := x]> l))
  end.

(** ** Normalisation of one constraint (lines 50-62) *)

(** One turn of [for i, coeff in enumerate(coeffs)]. *)
Definition negative_step (st : matrix * coeffs_ref * Z) (i : nat)
  : matrix * coeffs_ref * Z :=
  let '(A, r, bound) := st in
  match deref A r !! i with
  | Some coeff =>
      if coeff <? 0 then
        let bound := bound + Z.abs coeff in
        let '(A, r) := setitem A r i (Z.abs coeff) in
        (A, r, bound)
      else st
  | None => st
  end.

Definition handle_negatives (A : matrix) (r : coeffs_ref) (bound : Z)
  : matrix * coeffs_ref * Z :=
  foldl negative_step (A, r, bound) (seq 0 (length (deref A r))).

(** Returns the matrix as the loop leaves it, the list [coeffs] names, the
    bound and the flag [geq]. *)
Definition normalize (A : matrix) (constraint_num : nat) (bound : Z)
  : matrix * coeffs_ref * Z * bool :=
  let coeffs := RowOf constraint_num in
  let '(coeffs, bound, geq) :=
    if bound <? 0
    then (Fresh (Z.opp <$> deref A coeffs), - bound, true)
    else (coeffs, bound, false) in
  let '(A, coeffs, bound) := handle_negatives A coeffs bound in
  (A, coeffs, bound, geq).

(** ** Clauses of one constraint (lines 36-43 and 64-110) *)

Definition base_s_idx (num_vars : Z) : Z := 2 * num_vars + 1.

(** [get_s_idx] is a closure over [A] and [num_vars]; it reads the row of
    [A] as it is at the time of the call.  It is only called with
    [constraint_num < len(A)]. *)
Definition get_s_idx (A : matrix) (num_vars : Z)
    (constraint_num : nat) (i j : Z) : Z :=
  let max_sum := sum_abs (A !!! constraint_num) in
  let offset := Z.of_nat constraint_num * (num_vars + 1) * (max_sum + 1) in
  base_s_idx num_vars + offset + i * (max_sum + 1) + j.

(** [var_i = i if coeffs[i-1] >= 0 else (i + num_vars)], given the value
    [coeff] read from [coeffs[i-1]]. *)
Definition var_i (num_vars : Z) (coeff : Z) (i : Z) : Z :=
  if 0 <=? coeff then i else i + num_vars.

Section constraint.
Context (A : matrix) (num_vars : Z) (constraint_num : nat).

Local Abbreviation S_ := (get_s_idx A num_vars constraint_num).

(** Base cases for [i = 0]. *)
Definition base_clauses (max_sum : Z) : list clause :=
  [S_ 0 0] :: ((λ j, [- S_ 0 j]) <$> range 1 (max_sum + 1)).

(** Body of [for j in range(max_sum + 1)]. *)
Definition cell_clauses (w_i v_i i j : Z) : list clause :=
  let s_ij := S_ i j in
  let s_prev_j := S_ (i - 1) j in
  if j <? w_i then
    [ [- s_ij; s_prev_j];
      [- s_ij; - v_i];
      [- s_prev_j; v_i; s_ij] ]
  else
    let s_prev_j_minus_w := S_ (i - 1) (j - w_i) in
    [ [- s_ij; s_prev_j; s_prev_j_minus_w];
      [- s_ij; s_prev_j; v_i];
      [- s_ij; - v_i; s_prev_j_minus_w];
      [- s_prev_j; v_i; s_ij];
      [- s_prev_j_minus_w; - v_i; s_ij] ].

(** Body of [for i in range(1, num_vars + 1)]; [coeffs[i-1]] raises
    [IndexError] on a row shorter than the first one. *)
Definition variable_clauses (coeffs : list Z) (max_sum : Z) (i : Z)
  : result (list clause) :=
  match coeffs !! Z.to_nat (i - 1) with
  | None => Raise IndexError
  | Some coeff =>
      let w_i := Z.abs coeff in
      let v_i := var_i num_vars coeff i in
      Ok (j ← range 0 (max_sum + 1); cell_clauses w_i v_i i j)
  end.

Fixpoint variables_loop (coeffs : list Z) (max_sum : Z) (idxs : list Z)
  : result (list clause) :=
  match idxs with
  | [] => Ok []
  | i :: idxs' =>
      match variable_clauses coeffs max_sum i with
      | Raise e => Raise e
      | Ok cls =>
          match variables_loop coeffs max_sum idxs' with
          | Raise e => Raise e
          | Ok rest => Ok (cls ++ rest)
          end
      end
  end.

(** The bounding constraint. *)
Definition bounding_clauses (geq : bool) (bound max_sum : Z) : list clause :=
  if negb geq then
    (λ k, [- S_ num_vars k]) <$> range (bound + 1) (max_sum + 1)
  else if max_sum <? bound then
    [ [1]; [-1] ]
  else
    [ (λ k, S_ num_vars k) <$> range bound (max_sum + 1) ].

(** Everything appended to [clauses] for this constraint, after the
    normalisation. *)
Definition constraint_clauses (coeffs : list Z) (bound : Z) (geq : bool)
  : result (list clause) :=
  let max_sum := sum_abs coeffs in
  match variables_loop coeffs max_sum (range 1 (num_vars + 1)) with
  | Raise e => Raise e
  | Ok vars =>
      Ok (base_clauses max_sum ++ vars ++ bounding_clauses geq bound max_sum)
  end.
End constraint.

(** ** The encoder (lines 5-112) *)

(** Clauses tying [z_i] to the negation of [x_i]. *)
Definition complement_clauses (num_vars : Z) : list clause :=
  i ← range 0 num_vars;
  let x_i := i + 1 in
  let z_i := x_i + num_vars in
  [ [- x_i; - z_i]; [x_i; z_i] ].

(** Body of [for constraint_num in range(num_constraints)]: the clauses to
    append, or the exception, and the matrix afterwards. *)
Definition encode_constraint (num_vars : Z) (b : list Z)
    (A : matrix) (constraint_num : nat) : result (list clause) * matrix :=
  match b !! constraint_num with
  | None => (Raise IndexError, A)
  | Some bound =>
      let '(A, coeffs, bound, geq) := normalize A constraint_num bound in
      (constraint_clauses A num_vars constraint_num (deref A coeffs) bound geq,
       A)
  end.

Fixpoint constraints_loop (num_vars : Z) (b : list Z) (cs : list nat)
    (A : matrix) (clauses : list clause) : result (list clause) * matrix :=
  match cs with
  | [] => (Ok clauses, A)
  | constraint_num :: cs' =>
      match encode_constraint num_vars b A constraint_num with
      | (Raise e, A) => (Raise e, A)
      | (Ok new, A) => constraints_loop num_vars b cs' A (clauses ++ new)
      end
  end.

(** The result of the call, and the matrix the caller is left with. *)
Definition encode_ilp_to_sat (A : matrix) (b : list Z)
  : result (list clause) * matrix :=
  match A with
  | [] => (Ok [], A)
  | [] :: _ => (Ok [], A)
  | row0 :: _ =>
      let num_constraints := length A in
      let num_vars := Z.of_nat (length row0) in
      constraints_loop num_vars b (seq 0 num_constraints) A
        (complement_clauses num_vars)
  end.

(** ** Assembling, decoding and solving (lines 114-159) *)

(** [max(abs(lit) for clause in clauses for lit in clause)]; [max] of an
    empty sequence raises [ValueError]. *)
Definition max_abs_lit (clauses : list clause) : result Z :=
  match Z.abs <$> concat clauses with
  | [] => Raise ValueError
  | m :: ms => Ok (foldl Z.max m ms)
  end.

(** [" ".join(...)] and ["\n".join(...)] *)
Fixpoint join (sep : string) (parts : list string) : string :=
  match parts with
  | [] => ""
  | [s] => s
  | s :: rest => s +:+ sep +:+ join sep rest
  end.

Definition newline : string := String (Ascii.ascii_of_nat 10) EmptyString.

Definition clauses_to_dimacs (clauses : list clause) (num_vars : Z) : string :=
  let header :=
    "p cnf " +:+ pretty num_vars +:+ " " +:+ pretty (length clauses) in
  let lines := (λ cl : clause, join " " (pretty <$> cl) +:+ " 0") <$> clauses in
  join newline (header :: lines).

(** [decode_solution]: the dict is given as its items in insertion order.
    [solution] is [None] when the solver found no output file, and then
    [solution.get] raises [AttributeError]. *)
Definition decode_solution (solution : option (gmap Z bool)) (num_vars : Z)
  : result (list (string * Z)) :=
  match range 0 num_vars, solution with
  | [], _ => Ok []
  | _ :: _, None => Raise AttributeError
  | idxs, Some sol =>
      Ok ((λ i, ("x" +:+ pretty (i + 1),
                 if default false (sol !! (i + 1)) then 1 else 0)) <$> idxs)
  end.

(** What [main] prints, and the status the process ends with. *)
Inductive printed : Type :=
| PrintFeasible (solution : option (list (string * Z)))
| PrintInfeasible
| PrintError (e : exn).

Section solver.
(** The two collaborators that leave the program: [solve_sat] runs the
    external resolver on the DIMACS text, [parse_ilp_file] reads a file. *)
Context (solve_sat : string → bool → result (bool * option (gmap Z bool))).
Context (parse_ilp_file : string → result (matrix * list Z)).

Definition solve_ilp (A : matrix) (b : list Z) (use_uv : bool)
  : result (bool * option (list (string * Z))) :=
  match encode_ilp_to_sat A b with
  | (Raise e, _) => Raise e
  | (Ok clauses, A) =>
      match max_abs_lit clauses with
      | Raise e => Raise e
      | Ok num_vars =>
          let dimacs_str := clauses_to_dimacs clauses num_vars in
          match solve_sat dimacs_str use_uv with
          | Raise e => Raise e
          | Ok (false, _) => Ok (false, None)
          | Ok (true, solution) =>
              match A !! 0%nat with
              | None => Raise IndexError
              | Some row0 =>
                  match decode_solution solution (Z.of_nat (length row0)) with
                  | Raise e => Raise e
                  | Ok d => Ok (true, Some d)
                  end
              end
          end
      end
  end.

(** [main] after [parse_args]: [sys.exit(1)] in the handler, status 0
    when the function falls off its end. *)
Definition main (input : string) (uv : bool) : printed * Z :=
  match parse_ilp_file input with
  | Raise e => (PrintError e, 1)
  | Ok (A, b) =>
      match solve_ilp A b uv with
      | Raise e => (PrintError e, 1)
      | Ok (is_feasible, solution) =>
          if is_feasible then (PrintFeasible solution, 0)
          else (PrintInfeasible, 0)
      end
  end.
End solver.

(** ** Meaning of clauses and of constraints *)

(** An assignment gives every variable identifier a truth value.  A
    positive literal asks for its variable to be true, a negative one for
    it to be false ([generate_packages] in [satsolver.py] reads literals so). *)
Definition lit_true (v : Z → bool) (lit : Z) : bool :=
  if 0 <? lit then v (Z.abs lit) else negb (v (Z.abs lit)).

Definition clause_true (v : Z → bool) (cl : clause) : bool :=
  existsb (lit_true v) cl.

Definition cnf_true (v : Z → bool) (clauses : list clause) : bool :=
  forallb (clause_true v) clauses.

(** Direct evaluation of [Ax <= b] at a 0/1 vector. *)
Definition dot (row x : list Z) : Z :=
  foldr Z.add 0 (zip_with Z.mul row x).

Definition satisfies_ilp (A : matrix) (b : list Z) (x : list Z) : bool :=
  forallb (λ rb : list Z * Z, dot rb.1 x <=? rb.2) (zip A b).

(** The literal assignment of a 0/1 vector [x]: variable [i] is true when
    [x[i-1] = 1], and its complement [i + n] when [x[i-1] = 0]. *)
Definition extends_x (x : list Z) (v : Z → bool) : Prop :=
  let n := Z.of_nat (length x) in
  ∀ (i : nat) (xi : Z), x !! i = Some xi →
    v (Z.of_nat i + 1) = bool_decide (xi = 1) ∧
    v (Z.of_nat i + 1 + n) = negb (bool_decide (xi = 1)).

(** The accumulator offset of constraint [c] as the specification words it:
    the sizes of the blocks of all the constraints before [c]. *)
Definition spec_c_offset (A : matrix) (num_vars : Z) (c : nat) : Z :=
  foldr Z.add 0
    ((λ row, (num_vars + 1) * (sum_abs row + 1)) <$> take c A).

Definition spec_s_idx (A : matrix) (num_vars : Z) (c : nat) (i j : Z) : Z :=
  base_s_idx num_vars + spec_c_offset A num_vars c
  + i * (sum_abs (A !!! c) + 1) + j.

(** A clause with at least one literal, none of them zero. *)
Definition well_formed (cl : clause) : Prop :=
  cl ≠ [] ∧ Forall (λ lit, lit ≠ 0) cl.

(** The clauses a call returned; no clauses when it raised. *)
Definition clauses_of (r : result (list clause) * matrix) : list clause :=
  match r.1 with
  | Ok cls => cls
  | Raise _ => []
  end.

(** ** What the normalisation adds to the bound *)

(** The absolute values of the negative entries of a list, summed. *)
Definition neg_sum (coeffs : list Z) : Z :=
  foldr (λ a acc, (if a <? 0 then Z.abs a else 0) + acc) 0 coeffs.

(** The positive entries of a list, summed. *)
Definition pos_sum (coeffs : list Z) : Z :=
  foldr (λ a acc, (if 0 <? a then a else 0) + acc) 0 coeffs.

(** The bound the clauses of a constraint are built for. *)
Definition normalized_bound (row : list Z) (bound : Z) : Z :=
  if bound <? 0 then - bound + pos_sum row else bound + neg_sum row.

(** ** The loop over the constraints, constraint by constraint *)

(** The first exception of a list of results, or all their clauses. *)
Fixpoint collect (rs : list (result (list clause))) : result (list clause) :=
  match rs with
  | [] => Ok []
  | Raise e :: _ => Raise e
  | Ok cls :: rs' =>
      match collect rs' with
      | Raise e => Raise e
      | Ok rest => Ok (cls ++ rest)
      end
  end.

(** Row [c] of the caller's matrix once its constraint has been encoded. *)
Definition row_after (b : list Z) (c : nat) (row : list Z) : list Z :=
  match b !! c with
  | Some bound => if bound <? 0 then row else Z.abs <$> row
  | None => row
  end.

(** ** The sum a constraint's clauses count *)

(** The absolute values of the coefficients at the positions [i0], [i0+1],
    ... that [β] selects, summed. *)
Fixpoint bsum (β : nat → bool) (i0 : nat) (coeffs : list Z) : Z :=
  match coeffs with
  | [] => 0
  | a :: l => (if β i0 then Z.abs a else 0) + bsum β (S i0) l
  end.

(** The absolute values of the first [n] coefficients of [row] whose
    variable ([i + 1] for position [i]) the assignment [v] makes true. *)
Definition selected_sum (v : Z → bool) (n : nat) (row : list Z) : Z :=
  bsum (λ i, v (Z.of_nat i + 1)) 0 (take n row).

(** The assignment that reads the original variables off the 0/1 vector
    [x], gives every complement the opposite value, and makes the
    accumulator of row [k], column [j] of the only constraint true when the
    first [k] selected coefficients of [row] sum to [j]. *)
Definition canonical_assignment (row x : list Z) : Z → bool := λ id,
  let n := Z.of_nat (length row) in
  let ms := sum_abs row in
  let bit := λ i : nat, bool_decide (x !! i = Some 1) in
  if id <=? n then bit (Z.to_nat (id - 1))
  else if id <=? 2 * n then negb (bit (Z.to_nat (id - 1 - n)))
  else
    let q := id - (2 * n + 1) in
    bsum bit 0 (take (Z.to_nat (q / (ms + 1))) row) =? q mod (ms + 1).

(** A literal that is not about a complement variable [n+1 .. 2n]. *)
Definition off_complement (n : Z) (lit : Z) : Prop :=
  Z.abs lit ≤ n ∨ 2 * n < Z.abs lit.

(** A bound on the number of clauses one constraint appends. *)
Definition clause_budget (n : Z) (row : list Z) : Z :=
  (sum_abs row + 1) * (5 * n + 2) + 1.

(** The entry [decode_solution] makes for position [i]: the name of
    variable [i + 1] and 1 or 0 as the solution has it true or not. *)
Definition decoded_entry (sol : gmap Z bool) (i : Z) : string * Z :=
  ("x" +:+ pretty (i + 1), if default false (sol !! (i + 1)) then 1 else 0).

(** ** Reading a DIMACS text back *)

(** [s.split(sep)] for a separator of one character. *)
Fixpoint split_on (sep : Ascii.ascii) (s : string) : list string :=
  match s with
  | EmptyString => [EmptyString]
  | String a s' =>
      if decide (a = sep) then EmptyString :: split_on sep s'
      else match split_on sep s' with
           | [] => [String a EmptyString]
           | w :: ws => String a w :: ws
           end
  end.

(** No character of [s] is [sep]. *)
Fixpoint free_of (sep : Ascii.ascii) (s : string) : Prop :=
  match s with
  | EmptyString => True
  | String a s' => a ≠ sep ∧ free_of sep s'
  end.

Definition space : Ascii.ascii := Ascii.ascii_of_nat 32.
Definition line_feed : Ascii.ascii := Ascii.ascii_of_nat 10.

(** The 0/1 vector an assignment gives to the original variables
    [1 .. n]. *)
Definition vector_of (v : Z → bool) (n : nat) : list Z :=
  (λ i : nat, if v (Z.of_nat i + 1) then 1 else 0) <$> seq 0 n.

(** The characters of a decimal numeral. *)
Definition numeral_alphabet : list Ascii.ascii :=
  String.list_ascii_of_string "0123456789-".

(** Decimal numerals hold digits and at most a leading dash. *)
Fixpoint numeral_chars (s : string) : Prop :=
  match s with
  | EmptyString => True
  | String a s' =>
      a ∈ numeral_alphabet ∧
      numeral_chars s'
  end.

(** * Properties *)

(** ** Ranges and sums *)

Lemma elem_of_range (k lo hi : Z) : k ∈ range lo hi ↔ lo ≤ k < hi.
Proof. unfold range. rewrite elem_of_seqZ. lia. Qed.

Lemma range_nil (lo hi : Z) : hi ≤ lo → range lo hi = [].
Proof. intros. unfold range. apply seqZ_nil. lia. Qed.

Lemma range_cons (lo hi : Z) : lo < hi → range lo hi = lo :: range (lo + 1) hi.
Proof.
  intros. unfold range. rewrite seqZ_cons by lia.
  f_equal. f_equal; lia.
Qed.

Lemma sum_abs_cons (a : Z) (l : list Z) : sum_abs (a :: l) = Z.abs a + sum_abs l.
Proof. reflexivity. Qed.

Lemma sum_abs_nonneg (coeffs : list Z) : 0 ≤ sum_abs coeffs.
Proof. induction coeffs as [|a l IH]; [done |]. rewrite sum_abs_cons. lia. Qed.

Lemma sum_abs_replicate_0 (n : nat) : sum_abs (replicate n 0) = 0.
Proof. induction n as [|n IH]; [done |]. simpl replicate. rewrite sum_abs_cons, IH. done. Qed.

Lemma sum_abs_fmap_abs (coeffs : list Z) : sum_abs (Z.abs <$> coeffs) = sum_abs coeffs.
Proof.
  induction coeffs as [|a l IH]; [done |].
  rewrite fmap_cons, !sum_abs_cons, IH. lia.
Qed.

(** ** The normalisation loop *)

(** Writing through the name [coeffs] changes the list it names at [i]. *)
Lemma deref_setitem (A : matrix) (r : coeffs_ref) (i : nat) (x : Z) :
  deref (setitem A r i x).1 (setitem A r i x).2 = <[i := x]> (deref A r).
Proof.
  destruct r as [c|l]; simpl; [|done].
  destruct (decide (c < length A)%nat) as [Hlt|Hge].
  - by rewrite list_lookup_total_insert_eq.
  - rewrite list_insert_ge by lia.
    rewrite list_lookup_total_alt, lookup_ge_None_2 by lia. done.
Qed.

Lemma negative_step_deref (A : matrix) (r : coeffs_ref) (bound : Z) (i : nat) :
  let st := negative_step (A, r, bound) i in
  deref st.1.1 st.1.2 !! i = Z.abs <$> deref A r !! i ∧
  (∀ k, k ≠ i → deref st.1.1 st.1.2 !! k = deref A r !! k) ∧
  bound ≤ st.2.
Proof.
  unfold negative_step.
  destruct (deref A r !! i) as [coeff|] eqn:Hi; simpl.
  - destruct (coeff <? 0) eqn:Hneg.
    + pose proof (deref_setitem A r i (Z.abs coeff)) as Hset.
      destruct (setitem A r i (Z.abs coeff)) as [A' r']. simpl in *.
      rewrite Hset. split_and!.
      * rewrite list_lookup_insert_eq; [done |]. by eapply lookup_lt_Some.
      * intros k Hk. by rewrite list_lookup_insert_ne.
      * lia.
    + simpl. rewrite Hi. split_and!; [|done|lia].
      f_equal. apply Z.ltb_ge in Hneg. lia.
  - rewrite Hi. done.
Qed.

(** After the turns for the indices [0 .. k-1], the first [k] coefficients
    are absolute values and the others are as they were. *)
Lemma negative_loop_deref (k : nat) (A : matrix) (r : coeffs_ref) (bound : Z) :
  let st := foldl negative_step (A, r, bound) (seq 0 k) in
  (∀ i, deref st.1.1 st.1.2 !! i =
        if decide (i < k)%nat then Z.abs <$> deref A r !! i else deref A r !! i) ∧
  bound ≤ st.2.
Proof.
  induction k as [|k IH].
  - simpl. split; [|lia]. intros i. destruct (decide (i < 0)%nat); [lia | done].
  - rewrite seq_S, foldl_app. change (0 + k)%nat with k.
    cbn [foldl]. cbv zeta in IH |- *.
    destruct (foldl negative_step (A, r, bound) (seq 0 k)) as [[A1 r1] b1].
    cbn [fst snd] in IH. destruct IH as [IHd IHb].
    pose proof (negative_step_deref A1 r1 b1 k) as Hstep. cbv zeta in Hstep.
    destruct Hstep as (Hk & Hother & Hb).
    split; [|lia].
    intros i. destruct (decide (i = k)) as [->|Hne].
    + rewrite Hk, IHd. repeat case_decide; try lia. done.
    + rewrite Hother, IHd by done. repeat case_decide; try lia; done.
Qed.

Lemma handle_negatives_deref (A : matrix) (r : coeffs_ref) (bound : Z) :
  let st := handle_negatives A r bound in
  deref st.1.1 st.1.2 = Z.abs <$> deref A r ∧ bound ≤ st.2.
Proof.
  unfold handle_negatives.
  pose proof (negative_loop_deref (length (deref A r)) A r bound) as [Hd Hb].
  simpl in *. split; [|done].
  apply list_eq. intros i. rewrite Hd, list_lookup_fmap.
  case_decide as Hlt; [done |].
  rewrite lookup_ge_None_2 by lia. done.
Qed.

(** Nothing is written when no coefficient is negative. *)
Lemma negative_loop_nonneg (A : matrix) (r : coeffs_ref) (bound : Z) (idxs : list nat) :
  Forall (λ a, 0 ≤ a) (deref A r) →
  foldl negative_step (A, r, bound) idxs = (A, r, bound).
Proof.
  intros Hpos. induction idxs as [|i idxs IH]; [done |].
  cbn [foldl].
  assert (negative_step (A, r, bound) i = (A, r, bound)) as ->; [|exact IH].
  unfold negative_step.
  destruct (deref A r !! i) as [coeff|] eqn:Hi; [|done].
  rewrite Forall_lookup in Hpos. specialize (Hpos _ _ Hi).
  destruct (coeff <? 0) eqn:Hneg; [|done].
  apply Z.ltb_lt in Hneg. simpl in Hpos. lia.
Qed.

Lemma handle_negatives_nonneg (A : matrix) (r : coeffs_ref) (bound : Z) :
  Forall (λ a, 0 ≤ a) (deref A r) →
  handle_negatives A r bound = (A, r, bound).
Proof. apply negative_loop_nonneg. Qed.

(** What [normalize] leaves behind: [coeffs] holds absolute values, the
    bound is not negative, and [geq] records the sign of the given bound. *)
Lemma normalize_spec (A : matrix) (c : nat) (bound : Z) :
  let st := normalize A c bound in
  deref st.1.1.1 st.1.1.2 = Z.abs <$> (A !!! c) ∧
  0 ≤ st.1.2 ∧
  st.2 = (bound <? 0).
Proof.
  unfold normalize. destruct (bound <? 0) eqn:Hb.
  - pose proof (handle_negatives_deref A (Fresh (Z.opp <$> deref A (RowOf c))) (- bound))
      as [Hd Hle].
    destruct (handle_negatives _ _ _) as [[A1 r1] b1]. simpl in *.
    apply Z.ltb_lt in Hb. split_and!; [|lia|done].
    rewrite Hd, <- list_fmap_compose. apply list_fmap_ext.
    intros _ a _. simpl. lia.
  - pose proof (handle_negatives_deref A (RowOf c) bound) as [Hd Hle].
    destruct (handle_negatives _ _ _) as [[A1 r1] b1]. simpl in *.
    apply Z.ltb_ge in Hb. split_and!; [done|lia|done].
Qed.

(** The largest sum the bounding step uses is the one [get_s_idx] computes
    from the row. *)
Lemma normalize_max_sum (A : matrix) (c : nat) (bound : Z) :
  let st := normalize A c bound in
  sum_abs (deref st.1.1.1 st.1.1.2) = sum_abs (A !!! c).
Proof.
  intros st. pose proof (normalize_spec A c bound) as [Hd _]. fold st in Hd.
  by rewrite Hd, sum_abs_fmap_abs.
Qed.

(** ** Identifiers are positive *)

Lemma get_s_idx_pos (A : matrix) (n : Z) (c : nat) (i j : Z) :
  0 ≤ n → 0 ≤ i → 0 ≤ j → 2 * n < get_s_idx A n c i j.
Proof.
  intros Hn Hi Hj. unfold get_s_idx, base_s_idx.
  pose proof (sum_abs_nonneg (A !!! c)) as Hs.
  assert (0 ≤ Z.of_nat c * (n + 1) * (sum_abs (A !!! c) + 1)) by nia.
  assert (0 ≤ i * (sum_abs (A !!! c) + 1)) by nia.
  lia.
Qed.

(** ** Loops that only append *)

Lemma variables_loop_Forall (P : clause → Prop) (A : matrix) (n : Z) (c : nat)
    (coeffs : list Z) (max_sum : Z) (idxs : list Z) (cls : list clause) :
  variables_loop A n c coeffs max_sum idxs = Ok cls →
  (∀ i coeff j, i ∈ idxs → coeffs !! Z.to_nat (i - 1) = Some coeff →
     0 ≤ j ≤ max_sum →
     Forall P (cell_clauses A n c (Z.abs coeff) (var_i n coeff i) i j)) →
  Forall P cls.
Proof.
  revert cls. induction idxs as [|i idxs IH]; intros cls Hrun Hcell.
  - simpl in Hrun. by inversion Hrun.
  - simpl in Hrun. unfold variable_clauses in Hrun.
    destruct (coeffs !! Z.to_nat (i - 1)) as [coeff|] eqn:Hc; [|done].
    destruct (variables_loop A n c coeffs max_sum idxs) as [rest|] eqn:Hrest; [|done].
    inversion Hrun; subst cls. apply Forall_app. split.
    + apply Forall_bind, Forall_forall. intros j Hj.
      apply elem_of_range in Hj.
      apply (Hcell i coeff j); [left | done | lia].
    + apply IH; [done |]. intros i' coeff' j Hi'. apply Hcell. by right.
Qed.

Lemma variables_loop_ok (A : matrix) (n : Z) (c : nat)
    (coeffs : list Z) (max_sum : Z) (idxs : list Z) :
  Forall (λ i, 1 ≤ i ≤ Z.of_nat (length coeffs)) idxs →
  is_ok (variables_loop A n c coeffs max_sum idxs) = true.
Proof.
  induction 1 as [|i idxs Hi _ IH]; [done |].
  simpl. unfold variable_clauses.
  destruct (lookup_lt_is_Some_2 coeffs (Z.to_nat (i - 1))) as [coeff ->]; [lia |].
  by destruct (variables_loop A n c coeffs max_sum idxs).
Qed.

Lemma constraints_loop_prefix (n : Z) (b : list Z) (cs : list nat) (A A' : matrix)
    (clauses cls : list clause) :
  constraints_loop n b cs A clauses = (Ok cls, A') →
  ∃ rest, cls = clauses ++ rest.
Proof.
  revert A clauses. induction cs as [|c cs IH]; intros A clauses Hrun.
  - simpl in Hrun. inversion Hrun. exists []. by rewrite app_nil_r.
  - simpl in Hrun.
    destruct (encode_constraint n b A c) as [[new|e] A1]; [|done].
    apply IH in Hrun as [rest ->]. exists (new ++ rest). by rewrite app_assoc.
Qed.

Lemma constraints_loop_Forall (P : clause → Prop) (n : Z) (b : list Z)
    (cs : list nat) (A A' : matrix) (clauses cls : list clause) :
  constraints_loop n b cs A clauses = (Ok cls, A') →
  Forall P clauses →
  (∀ A0 c new A1, encode_constraint n b A0 c = (Ok new, A1) → Forall P new) →
  Forall P cls.
Proof.
  intros Hrun Hacc Hstep. revert A clauses Hrun Hacc.
  induction cs as [|c cs IH]; intros A clauses Hrun Hacc.
  - simpl in Hrun. by inversion Hrun; subst.
  - simpl in Hrun.
    destruct (encode_constraint n b A c) as [[new|e] A1] eqn:Hc; [|done].
    eapply IH; [done |]. apply Forall_app. split; [done |]. by eapply Hstep.
Qed.

(** ** Truth of clause lists *)

Lemma cnf_true_Forall (v : Z → bool) (cls : list clause) :
  cnf_true v cls = true ↔ Forall (λ cl, clause_true v cl = true) cls.
Proof.
  unfold cnf_true. rewrite forallb_forall, Forall_forall.
  split; intros H cl Hcl; apply H; by apply list_elem_of_In.
Qed.

Lemma cnf_true_elem (v : Z → bool) (cls : list clause) (cl : clause) :
  cnf_true v cls = true → cl ∈ cls → clause_true v cl = true.
Proof. rewrite cnf_true_Forall, Forall_forall. auto. Qed.

Lemma cnf_contradiction (v : Z → bool) (cls : list clause) (p : Z) :
  0 < p → [p] ∈ cls → [- p] ∈ cls → cnf_true v cls = false.
Proof.
  intros Hp Hpos Hneg. apply not_true_is_false. intros Hsat.
  pose proof (cnf_true_elem _ _ _ Hsat Hpos) as H1.
  pose proof (cnf_true_elem _ _ _ Hsat Hneg) as H2.
  unfold clause_true, lit_true in H1, H2. cbn [existsb] in H1, H2.
  rewrite orb_false_r in H1, H2.
  destruct (0 <? p) eqn:E1; [|apply Z.ltb_ge in E1; lia].
  destruct (0 <? - p) eqn:E2; [apply Z.ltb_lt in E2; lia|].
  rewrite Z.abs_opp in H2. rewrite H1 in H2. done.
Qed.

(** ** Well-formed clauses *)

Local Ltac wf_clause := split; [done | repeat constructor; lia].

Lemma complement_clauses_wf (n : Z) :
  0 ≤ n → Forall well_formed (complement_clauses n).
Proof.
  intros Hn. unfold complement_clauses.
  apply Forall_bind, Forall_forall. intros i Hi%elem_of_range.
  repeat constructor; try done; lia.
Qed.

Lemma var_i_pos (n coeff i : Z) : 0 ≤ n → 1 ≤ i → 0 < var_i n coeff i.
Proof. intros. unfold var_i. destruct (0 <=? coeff); lia. Qed.

Lemma base_clauses_wf (A : matrix) (n : Z) (c : nat) (max_sum : Z) :
  0 ≤ n → Forall well_formed (base_clauses A n c max_sum).
Proof.
  intros Hn. unfold base_clauses. constructor.
  - pose proof (get_s_idx_pos A n c 0 0). wf_clause.
  - apply Forall_fmap, Forall_forall. intros j Hj%elem_of_range. simpl.
    pose proof (get_s_idx_pos A n c 0 j). wf_clause.
Qed.

Lemma cell_clauses_wf (A : matrix) (n : Z) (c : nat) (w v i j : Z) :
  0 ≤ n → 1 ≤ i → 0 ≤ j → v ≠ 0 →
  Forall well_formed (cell_clauses A n c w v i j).
Proof.
  intros Hn Hi Hj Hv. unfold cell_clauses.
  pose proof (get_s_idx_pos A n c i j).
  pose proof (get_s_idx_pos A n c (i - 1) j).
  destruct (j <? w) eqn:Hw.
  - repeat constructor; try done; lia.
  - apply Z.ltb_ge in Hw.
    pose proof (get_s_idx_pos A n c (i - 1) (j - w)).
    repeat constructor; try done; lia.
Qed.

Lemma bounding_clauses_wf (A : matrix) (n : Z) (c : nat) (geq : bool)
    (bound max_sum : Z) :
  0 ≤ n → 0 ≤ bound →
  Forall well_formed (bounding_clauses A n c geq bound max_sum).
Proof.
  intros Hn Hb. unfold bounding_clauses. destruct geq; simpl.
  - destruct (max_sum <? bound) eqn:Hcmp.
    + repeat constructor; try done; lia.
    + apply Z.ltb_ge in Hcmp. constructor; [|constructor]. split.
      * rewrite range_cons by lia. done.
      * apply Forall_fmap, Forall_forall. intros k Hk%elem_of_range. simpl.
        pose proof (get_s_idx_pos A n c n k). lia.
  - apply Forall_fmap, Forall_forall. intros k Hk%elem_of_range. simpl.
    pose proof (get_s_idx_pos A n c n k). wf_clause.
Qed.

Lemma encode_constraint_wf (n : Z) (b : list Z) (A A1 : matrix) (c : nat)
    (new : list clause) :
  0 ≤ n → encode_constraint n b A c = (Ok new, A1) → Forall well_formed new.
Proof.
  intros Hn. unfold encode_constraint.
  destruct (b !! c) as [bound|]; [|done].
  pose proof (normalize_spec A c bound) as (_ & Hbound & _).
  destruct (normalize A c bound) as [[[A2 r] bd] geq]. simpl in Hbound.
  unfold constraint_clauses.
  destruct (variables_loop _ _ _ _ _ _) as [vars|] eqn:Hvars; [|done].
  intros Heq.
  assert (new = base_clauses A2 n c (sum_abs (deref A2 r)) ++ vars ++
                bounding_clauses A2 n c geq bd (sum_abs (deref A2 r))) as ->
    by congruence.
  rewrite !Forall_app. split_and!.
  - by apply base_clauses_wf.
  - eapply variables_loop_Forall; [exact Hvars |].
    intros i coeff j Hi%elem_of_range _ Hj.
    apply cell_clauses_wf; try lia.
    pose proof (var_i_pos n coeff i). lia.
  - by apply bounding_clauses_wf.
Qed.

Lemma bounding_clauses_nonempty (A : matrix) (n : Z) (c : nat) (geq : bool)
    (bound max_sum : Z) :
  Forall (λ cl, cl ≠ []) (bounding_clauses A n c geq bound max_sum).
Proof.
  unfold bounding_clauses. destruct geq; simpl.
  - destruct (max_sum <? bound) eqn:Hcmp.
    + by repeat constructor.
    + apply Z.ltb_ge in Hcmp. constructor; [|constructor].
      rewrite range_cons by lia. done.
  - apply Forall_fmap, Forall_forall. by intros k _.
Qed.

(** ** Claims about the normaliser *)

Lemma normalize_nonneg (A : matrix) (c : nat) (bound : Z) :
  Forall (λ a, 0 ≤ a) (A !!! c) →
  0 ≤ bound →
  normalize A c bound = (A, RowOf c, bound, false).
Proof.
  intros Hpos Hb. unfold normalize.
  destruct (bound <? 0) eqn:Hneg; [apply Z.ltb_lt in Hneg; lia |].
  by rewrite handle_negatives_nonneg.
Qed.

(** C7: on a constraint whose coefficients and bound are all non-negative,
    the normalisation step changes neither a coefficient nor the bound, and
    the direction stays at-most ([geq] is false). *)
Theorem C7_normalize_idempotent (A : matrix) (c : nat) (row : list Z) (bound : Z) :
  A !! c = Some row →
  Forall (λ a, 0 ≤ a) row →
  0 ≤ bound →
  normalize A c bound = (A, RowOf c, bound, false) ∧
  deref A (RowOf c) = row.
Proof.
  intros Hrow Hpos Hb.
  assert (A !!! c = row) as Hd by (by apply list_lookup_total_correct).
  split; [|done]. apply normalize_nonneg; [by rewrite Hd | done].
Qed.

Lemma C7_normalize_idempotent_witness :
  normalize [[2; 0; 3]] 0 4 = ([[2; 0; 3]], RowOf 0, 4, false) ∧
  deref [[2; 0; 3]] (RowOf 0) = [2; 0; 3].
Proof.
  apply (C7_normalize_idempotent [[2; 0; 3]] 0 [2; 0; 3] 4).
  - reflexivity.
  - repeat constructor; lia.
  - lia.
Defined.

(** ** Claims about the emitted clauses *)

(** C10: every clause of the list that [encode_ilp_to_sat] returns has at
    least one literal, and none of its literals is zero; the clauses of the
    bounding step, the at-least disjunction among them, are never empty. *)
Theorem C10_clauses_well_formed (A A' : matrix) (b : list Z) (cls : list clause) :
  encode_ilp_to_sat A b = (Ok cls, A') →
  Forall well_formed cls ∧
  ∀ A0 n c bound max_sum,
    Forall (λ cl, cl ≠ []) (bounding_clauses A0 n c true bound max_sum).
Proof.
  intros Hrun. split; [|intros; apply bounding_clauses_nonempty].
  unfold encode_ilp_to_sat in Hrun.
  destruct A as [|row0 rest]; [by inversion Hrun; subst |].
  destruct row0 as [|a row0]; [by inversion Hrun; subst |].
  eapply constraints_loop_Forall; [exact Hrun | |].
  - apply complement_clauses_wf. lia.
  - intros A0 c new A1. apply encode_constraint_wf. lia.
Qed.

Lemma C10_clauses_well_formed_witness :
  Forall well_formed (clauses_of (encode_ilp_to_sat [[-1; -1]] [-1])).
Proof.
  apply (C10_clauses_well_formed [[-1; -1]]
           (encode_ilp_to_sat [[-1; -1]] [-1]).2 [-1]).
  vm_compute. reflexivity.
Defined.

Lemma complement_clauses_elem (n i : Z) :
  1 ≤ i ≤ n →
  [- i; - (i + n)] ∈ complement_clauses n ∧ [i; i + n] ∈ complement_clauses n.
Proof.
  intros Hi. unfold complement_clauses.
  split; apply list_elem_of_bind; exists (i - 1);
    (split; [|apply elem_of_range; lia]);
    replace (i - 1 + 1) with i by lia; repeat constructor.
Qed.

(** C9: when [A] and its first row are not empty, the returned clauses
    contain [(-i, -(i+n))] and [(i, i+n)] for every original variable [i] in
    [1..n]; so every assignment that satisfies the returned formula gives
    the complement variable [i+n] the negation of variable [i]. *)
Theorem C9_complement_is_negation (A A' : matrix) (b : list Z)
    (row0 : list Z) (rest : matrix) (cls : list clause) (i : Z) :
  A = row0 :: rest →
  row0 ≠ [] →
  encode_ilp_to_sat A b = (Ok cls, A') →
  1 ≤ i ≤ Z.of_nat (length row0) →
  let n := Z.of_nat (length row0) in
  [- i; - (i + n)] ∈ cls ∧ [i; i + n] ∈ cls ∧
  ∀ v, cnf_true v cls = true → v (i + n) = negb (v i).
Proof.
  intros -> Hne Hrun Hi n.
  unfold encode_ilp_to_sat in Hrun.
  destruct row0 as [|a row0]; [done |].
  apply constraints_loop_prefix in Hrun as [more ->].
  destruct (complement_clauses_elem n i Hi) as [Hneg Hpos].
  assert ([- i; - (i + n)] ∈ complement_clauses n ++ more) as Hneg'
    by (apply elem_of_app; by left).
  assert ([i; i + n] ∈ complement_clauses n ++ more) as Hpos'
    by (apply elem_of_app; by left).
  split_and!; [done | done |].
  intros v Hsat.
  pose proof (cnf_true_elem _ _ _ Hsat Hneg') as H1.
  pose proof (cnf_true_elem _ _ _ Hsat Hpos') as H2.
  unfold clause_true, lit_true in H1, H2. cbn [existsb] in H1, H2.
  assert (0 < i + n) by lia.
  destruct (0 <? i) eqn:E1; [|apply Z.ltb_ge in E1; lia].
  destruct (0 <? i + n) eqn:E2; [|apply Z.ltb_ge in E2; lia].
  destruct (0 <? - i) eqn:E3; [apply Z.ltb_lt in E3; lia |].
  destruct (0 <? - (i + n)) eqn:E4; [apply Z.ltb_lt in E4; lia |].
  rewrite !Z.abs_opp in H1.
  rewrite (Z.abs_eq i) in * by lia. rewrite (Z.abs_eq (i + n)) in * by lia.
  destruct (v i), (v (i + n)); done.
Qed.

Lemma C9_complement_is_negation_witness :
  let cls := clauses_of (encode_ilp_to_sat [[1; -1]] [0]) in
  [- 2; - (2 + 2)] ∈ cls ∧ [2; 2 + 2] ∈ cls ∧
  ∀ v, cnf_true v cls = true → v (2 + 2) = negb (v 2).
Proof.
  apply (C9_complement_is_negation [[1; -1]]
           (encode_ilp_to_sat [[1; -1]] [0]).2 [0] [1; -1] [] _ 2).
  - reflexivity.
  - discriminate.
  - vm_compute. reflexivity.
  - simpl. lia.
Defined.

(** ** A system of one constraint *)

Lemma encode_single_row (row : list Z) (bound : Z) :
  row ≠ [] →
  encode_ilp_to_sat [row] [bound] =
    let n := Z.of_nat (length row) in
    let '(A1, r, bd, geq) := normalize [row] 0 bound in
    match constraint_clauses A1 n 0 (deref A1 r) bd geq with
    | Ok new => (Ok (complement_clauses n ++ new), A1)
    | Raise e => (Raise e, A1)
    end.
Proof.
  intros Hne. destruct row as [|a row]; [done |].
  unfold encode_ilp_to_sat. cbn [length seq constraints_loop].
  unfold encode_constraint. cbn [lookup list_lookup].
  destruct (normalize [a :: row] 0 bound) as [[[A1 r] bd] geq].
  by destruct (constraint_clauses _ _ _ _ _ _).
Qed.

Lemma lit_true_above (n k : Z) :
  0 ≤ n → n < k → lit_true (λ k, n <? k) k = true.
Proof.
  intros Hn Hk. unfold lit_true.
  destruct (0 <? k) eqn:E; [|apply Z.ltb_ge in E; lia].
  rewrite Z.abs_eq by lia. by apply Z.ltb_lt.
Qed.

Lemma lit_true_below (n k : Z) :
  0 < k ≤ n → lit_true (λ k, n <? k) (- k) = true.
Proof.
  intros Hk. unfold lit_true.
  destruct (0 <? - k) eqn:E; [apply Z.ltb_lt in E; lia |].
  rewrite Z.abs_opp, Z.abs_eq by lia.
  apply negb_true_iff, Z.ltb_ge. lia.
Qed.

Lemma clause_true_elem (v : Z → bool) (cl : clause) (lit : Z) :
  lit ∈ cl → lit_true v lit = true → clause_true v cl = true.
Proof.
  intros Hin Hlit. unfold clause_true. apply existsb_exists.
  exists lit. split; [by apply list_elem_of_In | done].
Qed.

(** ** An all-zero row *)

(** Proves a clause true from one of its first three literals. *)
Local Ltac some_lit tac :=
  first
    [ eapply clause_true_elem; [apply list_elem_of_here | solve [tac]]
    | eapply clause_true_elem;
        [apply list_elem_of_further, list_elem_of_here | solve [tac]]
    | eapply clause_true_elem;
        [do 2 apply list_elem_of_further; apply list_elem_of_here | solve [tac]] ].

(** With every original variable false and every other variable true, the
    clauses of an all-zero row with a bound that is not negative hold. *)
Lemma zero_row_satisfied (n : nat) (bound : Z) (new : list clause) :
  let N := Z.of_nat n in
  let A := [replicate n 0] in
  0 ≤ bound →
  constraint_clauses A N 0 (replicate n 0) bound false = Ok new →
  cnf_true (λ k, N <? k) (complement_clauses N ++ new) = true.
Proof.
  intros N A Hb Hrun.
  assert (0 ≤ N) as HN by lia.
  assert (∀ i j, 0 ≤ i → 0 ≤ j → N < get_s_idx A N 0 i j) as Hpos.
  { intros i j Hi Hj. pose proof (get_s_idx_pos A N 0 i j). lia. }
  unfold constraint_clauses in Hrun. rewrite sum_abs_replicate_0 in Hrun.
  destruct (variables_loop _ _ _ _ _ _) as [vars|] eqn:Hvars; [|done].
  assert (new = base_clauses A N 0 0 ++ vars ++ bounding_clauses A N 0 false bound 0)
    as -> by congruence.
  apply cnf_true_Forall. rewrite !Forall_app. split_and!.
  - unfold complement_clauses.
    apply Forall_bind, Forall_forall. intros i Hi%elem_of_range.
    repeat constructor.
    + some_lit ltac:(apply lit_true_below; lia).
    + some_lit ltac:(apply lit_true_above; lia).
  - unfold base_clauses. rewrite range_nil by lia. repeat constructor.
    some_lit ltac:(apply lit_true_above; [lia | apply Hpos; lia]).
  - eapply variables_loop_Forall; [exact Hvars |].
    intros i coeff j Hi%elem_of_range Hc Hj.
    apply lookup_replicate in Hc as [-> _].
    assert (j = 0) as -> by lia.
    unfold cell_clauses, var_i. cbn [Z.abs Z.ltb Z.leb Z.compare].
    repeat constructor;
      some_lit ltac:(apply lit_true_above; [lia | apply Hpos; lia]).
  - unfold bounding_clauses. cbn [negb]. rewrite range_nil by lia. constructor.
Qed.

(** An at-least constraint whose bound exceeds the largest possible sum
    appends the pair of unit clauses [[1]] and [[-1]]. *)
Lemma constraint_clauses_contradiction (A : matrix) (n : Z) (c : nat)
    (coeffs : list Z) (bound : Z) (new : list clause) :
  sum_abs coeffs < bound →
  constraint_clauses A n c coeffs bound true = Ok new →
  [1] ∈ new ∧ [-1] ∈ new.
Proof.
  intros Hlt Hrun. unfold constraint_clauses in Hrun.
  destruct (variables_loop _ _ _ _ _ _) as [vars|]; [|done].
  assert (new = base_clauses A n c (sum_abs coeffs) ++ vars ++
                bounding_clauses A n c true bound (sum_abs coeffs)) as ->
    by congruence.
  unfold bounding_clauses. cbn [negb].
  rewrite (proj2 (Z.ltb_lt (sum_abs coeffs) bound)) by done.
  rewrite !elem_of_app. split; right; right; repeat constructor.
Qed.

(** C6: for every [n >= 1], the system whose only constraint has an
    all-zero row of [n] coefficients encodes, when the bound is not
    negative, to a satisfiable clause list that does not hold the forced
    contradiction, and, when the bound is negative, to a clause list that
    no assignment satisfies. *)
Theorem C6_all_zero_row (n : nat) (bound : Z) :
  (1 ≤ n)%nat →
  ∃ cls A',
    encode_ilp_to_sat [replicate n 0] [bound] = (Ok cls, A') ∧
    (0 ≤ bound →
       (∃ v, cnf_true v cls = true) ∧ ¬ ([1] ∈ cls ∧ [-1] ∈ cls)) ∧
    (bound < 0 → ∀ v, cnf_true v cls = false).
Proof.
  intros Hn.
  assert (replicate n 0 ≠ []) as Hne by (destruct n; [lia | done]).
  rewrite (encode_single_row _ _ Hne). cbv zeta. rewrite length_replicate.
  assert (Forall (λ a, 0 ≤ a) (replicate n 0)) as Hzero
    by (apply Forall_replicate; lia).
  assert (∀ bd geq,
    is_ok (constraint_clauses [replicate n 0] (Z.of_nat n) 0
             (replicate n 0) bd geq) = true) as Hok.
  { intros bd geq. unfold constraint_clauses.
    pose proof (variables_loop_ok [replicate n 0] (Z.of_nat n) 0 (replicate n 0)
                  (sum_abs (replicate n 0)) (range 1 (Z.of_nat n + 1))) as Hloop.
    destruct (variables_loop _ _ _ _ _ _); [done |].
    apply Hloop, Forall_forall. intros i Hi%elem_of_range.
    rewrite length_replicate. lia. }
  destruct (Z.ltb_spec bound 0) as [Hneg|Hpos].
  - (* the bound is negative: the row is negated and [geq] is set *)
    unfold normalize. rewrite (proj2 (Z.ltb_lt bound 0) Hneg).
    cbn [deref]. change ([replicate n 0] !!! 0%nat) with (replicate n 0).
    rewrite fmap_replicate. change (- 0) with 0.
    rewrite handle_negatives_nonneg by done. cbn [deref].
    specialize (Hok (- bound) true).
    destruct (constraint_clauses _ _ _ _ _ _) as [new|] eqn:Hnew; [|done].
    eexists _, _. split; [done |]. split; [lia |]. intros _ v.
    apply constraint_clauses_contradiction in Hnew as [H1 H2];
      [|rewrite sum_abs_replicate_0; lia].
    apply (cnf_contradiction v _ 1); [lia | |]; apply elem_of_app; by right.
  - (* the bound is not negative: nothing is rewritten *)
    rewrite normalize_nonneg by done. cbn [deref].
    change ([replicate n 0] !!! 0%nat) with (replicate n 0).
    specialize (Hok bound false).
    destruct (constraint_clauses _ _ _ _ _ _) as [new|] eqn:Hnew; [|done].
    eexists _, _. split; [done |]. split; [|lia]. intros _.
    pose proof (zero_row_satisfied n bound new Hpos Hnew) as Hsat.
    split; [by eexists |]. intros [H1 H2].
    by rewrite (cnf_contradiction _ _ 1) in Hsat.
Qed.

Lemma C6_all_zero_row_witness :
  ∃ cls A',
    encode_ilp_to_sat [replicate 3 0] [-2] = (Ok cls, A') ∧
    (0 ≤ -2 →
       (∃ v, cnf_true v cls = true) ∧ ¬ ([1] ∈ cls ∧ [-1] ∈ cls)) ∧
    (-2 < 0 → ∀ v, cnf_true v cls = false).
Proof. apply (C6_all_zero_row 3 (-2)). lia. Defined.

(** * Where the code departs from the specification *)

(** Splits on the truth values of the variables that occur in [H], dropping
    the cases in which [H] has become [false = true]. *)
Local Ltac case_vars H v :=
  repeat match type of H with
         | context [v ?k] => destruct (v k); cbn in H; try discriminate H
         end.

(** ** The literal of a negative coefficient *)

(** C2: the sign test of [var_i] reads [coeffs] after the normalisation has
    replaced every coefficient by its absolute value, so the literal chosen
    for variable [i] is [i] itself in every constraint, never the
    complement [i + num_vars], whatever the sign of the coefficient was. *)
Theorem C2_literal_always_positive (A : matrix) (c : nat) (bound n i coeff : Z) :
  let st := normalize A c bound in
  deref st.1.1.1 st.1.1.2 !! Z.to_nat (i - 1) = Some coeff →
  var_i n coeff i = i.
Proof.
  intros st Hc. pose proof (normalize_spec A c bound) as [Hd _].
  fold st in Hd. rewrite Hd, list_lookup_fmap in Hc.
  destruct ((A !!! c) !! Z.to_nat (i - 1)) as [a|]; [|done].
  injection Hc as <-. unfold var_i.
  destruct (0 <=? Z.abs a) eqn:E; [done |].
  apply Z.leb_gt in E. lia.
Qed.

Lemma C2_literal_always_positive_witness :
  ([[-1]] : matrix) !! 0%nat = Some [-1] ∧ var_i 1 1 1 = 1.
Proof.
  split; [reflexivity |].
  apply (C2_literal_always_positive [[-1]] 0 0 1 1 1). reflexivity.
Defined.

(** ** The caller's matrix *)

(** C5: on [A = [[-1]]], [b = [0]] the call returns its clauses and leaves
    the caller's matrix as [[[1]]]: the row was overwritten in place. *)
Theorem C5_row_overwritten_in_place :
  is_ok (encode_ilp_to_sat [[-1]] [0]).1 = true ∧
  (encode_ilp_to_sat [[-1]] [0]).2 = [[1]].
Proof. split; reflexivity. Qed.

(** ** Soundness and completeness of the encoding *)

(** C1: for [A = [[1, -1]]], [b = [0]] (that is, [x1 - x2 <= 0]) the
    returned clauses express [x1 + x2 <= 1].  The vector [(1, 1)] satisfies
    the constraint, but no assignment that extends it satisfies the
    clauses; the vector [(1, 0)] violates the constraint, but an assignment
    that extends it satisfies every clause. *)
Theorem C1_encoding_differs_from_constraint :
  let A := [[1; -1]] in
  let b := [0] in
  let cls := clauses_of (encode_ilp_to_sat A b) in
  is_ok (encode_ilp_to_sat A b).1 = true ∧
  (satisfies_ilp A b [1; 1] = true ∧
   ∀ v, extends_x [1; 1] v → cnf_true v cls = false) ∧
  (satisfies_ilp A b [1; 0] = false ∧
   ∃ v, extends_x [1; 0] v ∧ cnf_true v cls = true).
Proof.
  cbv zeta. split; [reflexivity |]. split; split; try reflexivity.
  - intros v Hv.
    destruct (Hv 0%nat 1 eq_refl) as [H1 H3].
    destruct (Hv 1%nat 1 eq_refl) as [H2 H4].
    vm_compute in H1, H2, H3, H4.
    apply not_true_is_false. intros H. vm_compute in H.
    rewrite H1, H2, H3, H4 in H. cbn in H.
    case_vars H v.
  - exists (λ k, bool_decide (k ∈ [1; 4; 5; 9; 12])). split.
    + intros [|[|i]] xi Hxi; [| |done]; injection Hxi as <-; by vm_compute.
    + by vm_compute.
Qed.

(** ** Accumulator blocks *)

(** C3: for [A = [[1], [0]]] the accumulator of (constraint 0, row 1,
    column 0) and the accumulator of (constraint 1, row 0, column 0) are
    both variable 5, where the cumulative offset of the specification puts
    the latter at 7.  The base clause of the second constraint then forces
    [x1] false: [x1 = 1] satisfies both constraints with [b = [1, 0]], but
    no assignment with variable 1 true satisfies the returned clauses. *)
Theorem C3_accumulator_blocks_overlap :
  let A := [[1]; [0]] in
  let b := [1; 0] in
  get_s_idx A 1 0 1 0 = 5 ∧
  get_s_idx A 1 1 0 0 = 5 ∧
  spec_s_idx A 1 1 0 0 = 7 ∧
  (encode_ilp_to_sat A b).2 = A ∧
  is_ok (encode_ilp_to_sat A b).1 = true ∧
  satisfies_ilp A b [1] = true ∧
  ∀ v, v 1 = true → cnf_true v (clauses_of (encode_ilp_to_sat A b)) = false.
Proof.
  cbv zeta. split_and!; try reflexivity.
  intros v H1. apply not_true_is_false. intros H. vm_compute in H.
  rewrite H1 in H. cbn in H.
  case_vars H v.
Qed.

(** ** Empty input and the exit status *)

(** C4: with no constraints, or with a first row without coefficients, the
    encoder returns no clauses and [solve_ilp] raises [ValueError] at the
    [max] of an empty sequence, whatever the solver would answer; [main]
    then prints the error and exits with status 1. *)
Theorem C4_empty_input_raises
    (solve_sat : string → bool → result (bool * option (gmap Z bool)))
    (b : list Z) (rest : matrix) (input : string) (use_uv : bool) :
  solve_ilp solve_sat [] b use_uv = Raise ValueError ∧
  solve_ilp solve_sat ([] :: rest) b use_uv = Raise ValueError ∧
  main solve_sat (λ _, Ok ([], [])) input use_uv = (PrintError ValueError, 1).
Proof. split_and!; reflexivity. Qed.

(** C8: when the file parses and [solve_ilp] reports an infeasible
    instance, [main] prints "Infeasible" and ends with status 0. *)
Theorem C8_infeasible_exits_zero
    (solve_sat : string → bool → result (bool * option (gmap Z bool)))
    (parse_ilp_file : string → result (matrix * list Z))
    (input : string) (uv : bool) (A : matrix) (b : list Z) :
  parse_ilp_file input = Ok (A, b) →
  solve_ilp solve_sat A b uv = Ok (false, None) →
  main solve_sat parse_ilp_file input uv = (PrintInfeasible, 0).
Proof. intros Hparse Hsolve. unfold main. by rewrite Hparse, Hsolve. Qed.

Lemma C8_infeasible_exits_zero_witness :
  main (λ _ _, Ok (false, None)) (λ _, Ok ([[1]], [-1])) "in.txt" false
  = (PrintInfeasible, 0).
Proof.
  apply (C8_infeasible_exits_zero _ _ _ _ [[1]] [-1]).
  - reflexivity.
  - vm_compute. reflexivity.
Defined.

(** * Further properties of the encoder *)

(** ** The normalisation, exactly *)

Lemma neg_sum_cons (a : Z) (l : list Z) :
  neg_sum (a :: l) = (if a <? 0 then Z.abs a else 0) + neg_sum l.
Proof. reflexivity. Qed.

Lemma pos_sum_cons (a : Z) (l : list Z) :
  pos_sum (a :: l) = (if 0 <? a then a else 0) + pos_sum l.
Proof. reflexivity. Qed.

Lemma neg_sum_app (l1 l2 : list Z) : neg_sum (l1 ++ l2) = neg_sum l1 + neg_sum l2.
Proof.
  induction l1 as [|a l1 IH]; [done |].
  rewrite <- app_comm_cons, !neg_sum_cons, IH. lia.
Qed.

Lemma neg_sum_opp (l : list Z) : neg_sum (Z.opp <$> l) = pos_sum l.
Proof.
  induction l as [|a l IH]; [done |].
  rewrite fmap_cons, neg_sum_cons, pos_sum_cons, IH.
  destruct (Z.ltb_spec (- a) 0), (Z.ltb_spec 0 a); lia.
Qed.

Lemma neg_sum_nonneg (l : list Z) : 0 ≤ neg_sum l.
Proof.
  induction l as [|a l IH]; [done |].
  rewrite neg_sum_cons. destruct (a <? 0); lia.
Qed.

Lemma pos_sum_nonneg (l : list Z) : 0 ≤ pos_sum l.
Proof.
  induction l as [|a l IH]; [done |].
  rewrite pos_sum_cons. destruct (Z.ltb_spec 0 a); lia.
Qed.

(** After the turns for the indices [0 .. k-1]: the bound has grown by the
    negative entries met, the name [coeffs] still names the same object, and
    no other row of the matrix has been touched. *)
Lemma negative_loop_exact (k : nat) (A : matrix) (r : coeffs_ref) (bound : Z) :
  (k ≤ length (deref A r))%nat →
  let st := foldl negative_step (A, r, bound) (seq 0 k) in
  st.2 = bound + neg_sum (take k (deref A r)) ∧
  match r with
  | RowOf c =>
      st.1.2 = RowOf c ∧ length st.1.1 = length A ∧
      ∀ c', c' ≠ c → st.1.1 !! c' = A !! c'
  | Fresh _ => st.1.1 = A ∧ ∃ l', st.1.2 = Fresh l'
  end.
Proof.
  induction k as [|k IH]; intros Hk.
  - cbv zeta. cbn [seq foldl fst snd]. rewrite take_0.
    change (neg_sum []) with 0. split; [lia |]. destruct r; eauto.
  - rewrite seq_S, foldl_app. change (0 + k)%nat with k. cbn [foldl].
    pose proof (negative_loop_deref k A r bound) as [Hd _].
    cbv zeta in IH, Hd |- *. specialize (IH ltac:(lia)).
    specialize (Hd k). rewrite decide_False in Hd by lia.
    destruct (foldl negative_step (A, r, bound) (seq 0 k)) as [[A1 r1] b1].
    cbn [fst snd] in IH, Hd. destruct IH as [IHb IHs].
    destruct (lookup_lt_is_Some_2 (deref A r) k) as [a Ha]; [lia |].
    rewrite (take_S_r _ _ _ Ha), neg_sum_app.
    rewrite (neg_sum_cons a []). change (neg_sum []) with 0.
    unfold negative_step. rewrite Hd, Ha.
    destruct (a <? 0) eqn:Hneg.
    + destruct r as [c|l]; cbn [setitem fst snd].
      * destruct IHs as (-> & Hlen & Hother). cbn [setitem fst snd].
        split; [lia |]. split_and!; [done | by rewrite length_insert |].
        intros c' Hc'. rewrite list_lookup_insert_ne by done. by apply Hother.
      * destruct IHs as (-> & l' & ->). cbn [setitem fst snd].
        split; [lia |]. eauto.
    + cbn [fst snd]. split; [lia | done].
Qed.

(** The matrix, the bound and the flag after the normalisation of
    constraint [c]: with a negative bound the matrix is as before and the
    bound is [-bound] plus the positive coefficients; otherwise row [c] holds
    the absolute values and the bound has grown by the negative
    coefficients. *)
Lemma normalize_exact (A : matrix) (c : nat) (bound : Z) :
  let st := normalize A c bound in
  st.1.1.1 = (if bound <? 0 then A else <[c := Z.abs <$> (A !!! c)]> A) ∧
  deref st.1.1.1 st.1.1.2 = Z.abs <$> (A !!! c) ∧
  st.1.2 = normalized_bound (A !!! c) bound ∧
  st.2 = (bound <? 0).
Proof.
  pose proof (normalize_spec A c bound) as (Hd & _ & Hg).
  cbv zeta in Hd, Hg |- *. split_and!; [| done | | done]; clear Hd Hg.
  - unfold normalize. destruct (bound <? 0).
    + pose proof (negative_loop_exact
        (length (Z.opp <$> deref A (RowOf c))) A
        (Fresh (Z.opp <$> deref A (RowOf c))) (- bound) (le_n _)) as [_ [H _]].
      unfold handle_negatives. cbn [deref] in *.
      by destruct (foldl _ _ _) as [[A1 r1] b1].
    + pose proof (negative_loop_exact (length (deref A (RowOf c))) A
        (RowOf c) bound (le_n _)) as [_ (Hr & Hlen & Hother)].
      pose proof (handle_negatives_deref A (RowOf c) bound) as [Hd _].
      unfold handle_negatives in *. cbn [deref] in *.
      destruct (foldl _ _ _) as [[A1 r1] b1]. cbn [fst snd] in *. subst r1.
      cbn [deref] in Hd. apply list_eq. intros c'.
      destruct (decide (c' = c)) as [->|Hne].
      * destruct (decide (c < length A)%nat) as [Hlt|Hge].
        -- rewrite list_lookup_insert_eq by done.
           rewrite <- Hd. apply list_lookup_lookup_total_lt. lia.
        -- rewrite list_insert_ge by lia.
           rewrite !lookup_ge_None_2 by lia. done.
      * rewrite list_lookup_insert_ne by done. by apply Hother.
  - unfold normalize, normalized_bound. destruct (bound <? 0).
    + pose proof (negative_loop_exact
        (length (Z.opp <$> deref A (RowOf c))) A
        (Fresh (Z.opp <$> deref A (RowOf c))) (- bound) (le_n _)) as [H _].
      unfold handle_negatives. cbn [deref] in *.
      destruct (foldl _ _ _) as [[A1 r1] b1]. cbn [fst snd] in *.
      by rewrite H, firstn_all, neg_sum_opp.
    + pose proof (negative_loop_exact (length (deref A (RowOf c))) A
        (RowOf c) bound (le_n _)) as [H _].
      unfold handle_negatives. cbn [deref] in *.
      destruct (foldl _ _ _) as [[A1 r1] b1]. cbn [fst snd] in *.
      by rewrite H, firstn_all.
Qed.

(** ** One constraint depends on its own row only *)

Lemma get_s_idx_ext (A B : matrix) (n : Z) (c : nat) :
  sum_abs (A !!! c) = sum_abs (B !!! c) →
  get_s_idx A n c = get_s_idx B n c.
Proof. intros H. unfold get_s_idx. by rewrite H. Qed.

Lemma constraint_clauses_ext (A B : matrix) (n : Z) (c : nat)
    (coeffs : list Z) (bound : Z) (geq : bool) :
  sum_abs (A !!! c) = sum_abs (B !!! c) →
  constraint_clauses A n c coeffs bound geq
  = constraint_clauses B n c coeffs bound geq.
Proof.
  intros H. apply get_s_idx_ext with (n := n) in H.
  unfold constraint_clauses, base_clauses, bounding_clauses, variables_loop,
    variable_clauses, cell_clauses.
  by rewrite H.
Qed.

(** What one turn of the constraint loop appends and what it leaves in the
    matrix, in terms of the row and the bound of that constraint. *)
Lemma encode_constraint_exact (n : Z) (b : list Z) (A : matrix) (c : nat) (bound : Z) :
  b !! c = Some bound →
  encode_constraint n b A c =
    (constraint_clauses A n c (Z.abs <$> (A !!! c))
       (normalized_bound (A !!! c) bound) (bound <? 0),
     if bound <? 0 then A else <[c := Z.abs <$> (A !!! c)]> A).
Proof.
  intros Hb. unfold encode_constraint. rewrite Hb.
  pose proof (normalize_exact A c bound) as (HA & Hd & Hbd & Hg).
  destruct (normalize A c bound) as [[[A1 r] bd] geq]. cbn [fst snd] in *.
  subst bd geq. rewrite Hd. f_equal; [|done].
  apply constraint_clauses_ext. rewrite HA.
  destruct (bound <? 0); [done |].
  destruct (decide (c < length A)%nat).
  - rewrite list_lookup_total_insert_eq by done. apply sum_abs_fmap_abs.
  - by rewrite list_insert_ge by lia.
Qed.

Lemma encode_constraint_no_bound (n : Z) (b : list Z) (A : matrix) (c : nat) :
  b !! c = None → encode_constraint n b A c = (Raise IndexError, A).
Proof. intros Hb. unfold encode_constraint. by rewrite Hb. Qed.

(** The clauses of constraint [c] are the same in every matrix that has the
    same row [c]. *)
Lemma encode_constraint_own_row (n : Z) (b : list Z) (A B : matrix) (c : nat) :
  A !!! c = B !!! c →
  (encode_constraint n b A c).1 = (encode_constraint n b B c).1.
Proof.
  intros Hrow. destruct (b !! c) as [bound|] eqn:Hb.
  - rewrite !(encode_constraint_exact _ _ _ _ _ Hb). cbn [fst].
    rewrite Hrow. apply constraint_clauses_ext. by rewrite Hrow.
  - by rewrite !encode_constraint_no_bound.
Qed.

Lemma encode_constraint_matrix (n : Z) (b : list Z) (A : matrix) (c : nat) :
  let A1 := (encode_constraint n b A c).2 in
  length A1 = length A ∧
  (∀ c', c' ≠ c → A1 !! c' = A !! c') ∧
  A1 !! c = row_after b c <$> A !! c.
Proof.
  unfold row_after. destruct (b !! c) as [bound|] eqn:Hb.
  - rewrite (encode_constraint_exact _ _ _ _ _ Hb). cbn [snd].
    destruct (bound <? 0).
    + split_and!; [done | done |]. by destruct (A !! c).
    + split_and!.
      * by rewrite length_insert.
      * intros c' Hc'. by rewrite list_lookup_insert_ne.
      * destruct (A !! c) as [row|] eqn:Hrow.
        -- rewrite list_lookup_insert_eq by (by eapply lookup_lt_Some).
           by rewrite (list_lookup_total_correct _ _ _ Hrow).
        -- rewrite list_insert_ge; [done |]. by apply lookup_ge_None.
  - rewrite encode_constraint_no_bound by done. cbn [snd].
    split_and!; [done | done |]. by destruct (A !! c).
Qed.

(** ** The constraint loop as a whole *)

Lemma constraints_loop_seq (n : Z) (b : list Z) (A : matrix) (m k : nat)
    (Ak : matrix) (acc : list clause) :
  length Ak = length A →
  (∀ c, (k ≤ c)%nat → Ak !! c = A !! c) →
  let R := constraints_loop n b (seq k m) Ak acc in
  R.1 = match collect ((λ c, (encode_constraint n b A c).1) <$> seq k m) with
        | Ok body => Ok (acc ++ body)
        | Raise e => Raise e
        end ∧
  (is_ok R.1 = true →
     length R.2 = length A ∧
     ∀ c, R.2 !! c =
          if decide (k ≤ c < k + m)%nat then row_after b c <$> A !! c
          else Ak !! c).
Proof.
  revert k Ak acc. induction m as [|m IH]; intros k Ak acc Hlen Hrows.
  - cbn. rewrite app_nil_r. split; [done |]. intros _. split; [done |].
    intros c. rewrite decide_False by lia. done.
  - cbn [seq constraints_loop fmap list_fmap collect]. cbv zeta.
    assert ((encode_constraint n b Ak k).1 = (encode_constraint n b A k).1) as Hown.
    { apply encode_constraint_own_row.
      rewrite !list_lookup_total_alt. by rewrite Hrows. }
    pose proof (encode_constraint_matrix n b Ak k) as (Hl1 & Ho1 & Hk1).
    cbv zeta in Hl1, Ho1, Hk1.
    destruct (encode_constraint n b Ak k) as [r1 A1]. cbn [fst snd] in *.
    rewrite <- Hown. destruct r1 as [new|e]; [|done].
    specialize (IH (S k) A1 (acc ++ new)).
    destruct IH as [IH1 IH2].
    { lia. }
    { intros c Hc. rewrite Ho1 by lia. apply Hrows. lia. }
    cbv zeta in IH1, IH2. split.
    + rewrite IH1. destruct (collect _); [|done]. by rewrite app_assoc.
    + intros Hok. destruct (IH2 Hok) as [Hlen2 Hall]. split; [done |].
      intros c. rewrite Hall.
      destruct (decide (c = k)) as [->|Hne].
      * rewrite decide_False, decide_True by lia. by rewrite Hk1, Hrows.
      * rewrite Ho1 by done. repeat case_decide; try lia; done.
Qed.

(** ** When the encoder returns *)

Lemma collect_is_ok (rs : list (result (list clause))) :
  is_ok (collect rs) = forallb is_ok rs.
Proof.
  induction rs as [|[cls|e] rs IH]; [done | | done].
  cbn [collect forallb is_ok]. rewrite <- IH. by destruct (collect rs).
Qed.

Lemma variables_loop_is_ok (A : matrix) (n : Z) (c : nat)
    (coeffs : list Z) (max_sum : Z) (idxs : list Z) :
  is_ok (variables_loop A n c coeffs max_sum idxs) = true ↔
  Forall (λ i, is_Some (coeffs !! Z.to_nat (i - 1))) idxs.
Proof.
  induction idxs as [|i idxs IH].
  - split; [by constructor | done].
  - rewrite Forall_cons, <- IH. cbn [variables_loop]. unfold variable_clauses.
    destruct (coeffs !! Z.to_nat (i - 1)) as [coeff|].
    + destruct (variables_loop A n c coeffs max_sum idxs); cbn;
        (split; [intros H; split; [by eexists | done] | by intros [_ H]]).
    + cbn. split; [done |]. by intros [[? ?] _].
Qed.

Lemma constraint_clauses_is_ok (A : matrix) (n : Z) (c : nat)
    (coeffs : list Z) (bound : Z) (geq : bool) :
  0 ≤ n →
  is_ok (constraint_clauses A n c coeffs bound geq) = true ↔
  n ≤ Z.of_nat (length coeffs).
Proof.
  intros Hn. unfold constraint_clauses.
  pose proof (variables_loop_is_ok A n c coeffs (sum_abs coeffs)
                (range 1 (n + 1))) as Hloop.
  destruct (variables_loop _ _ _ _ _ _); cbn [is_ok] in *.
  - split; [|done]. intros _. apply proj1 in Hloop. specialize (Hloop eq_refl).
    destruct (decide (n = 0)) as [->|]; [lia |].
    rewrite Forall_forall in Hloop.
    destruct (Hloop n) as [a Ha]; [apply elem_of_range; lia |].
    apply lookup_lt_Some in Ha. lia.
  - split; [done |]. intros Hlen. apply Hloop, Forall_forall.
    intros i Hi%elem_of_range. apply lookup_lt_is_Some_2. lia.
Qed.

Lemma encode_constraint_is_ok (n : Z) (b : list Z) (A : matrix) (c : nat) :
  0 ≤ n →
  is_ok (encode_constraint n b A c).1 = true ↔
  (c < length b)%nat ∧ n ≤ Z.of_nat (length (A !!! c)).
Proof.
  intros Hn. destruct (b !! c) as [bound|] eqn:Hb.
  - rewrite (encode_constraint_exact _ _ _ _ _ Hb). cbn [fst].
    rewrite constraint_clauses_is_ok, length_fmap by done.
    apply lookup_lt_Some in Hb. split; [by split | by intros [_ ?]].
  - rewrite encode_constraint_no_bound by done. cbn.
    apply lookup_ge_None in Hb. split; [done |]. lia.
Qed.

(** The only exception the encoder raises is [IndexError]. *)
Lemma collect_raise (rs : list (result (list clause))) (e : exn) :
  collect rs = Raise e → Raise e ∈ rs.
Proof.
  induction rs as [|[cls|e'] rs IH]; [done | |].
  - cbn [collect]. destruct (collect rs); [done |].
    intros [= ->]. right. by apply IH.
  - cbn [collect]. intros [= ->]. left.
Qed.

Lemma encode_constraint_raise (n : Z) (b : list Z) (A : matrix) (c : nat) (e : exn) :
  (encode_constraint n b A c).1 = Raise e → e = IndexError.
Proof.
  unfold encode_constraint. destruct (b !! c); [|by intros [= <-]].
  destruct (normalize A c z) as [[[A1 r] bd] geq]. cbn [fst].
  unfold constraint_clauses.
  generalize (range 1 (n + 1)). intros idxs.
  destruct (variables_loop _ _ _ _ _ idxs) eqn:Hloop; [done |].
  intros [= <-]. revert Hloop.
  induction idxs as [|i idxs IH]; [done |].
  cbn [variables_loop]. unfold variable_clauses.
  destruct (deref A1 r !! Z.to_nat (i - 1)); [|by intros [= <-]].
  destruct (variables_loop _ _ _ _ _ idxs); [done |].
  intros [= <-]. by apply IH.
Qed.

Lemma encode_clauses_collect (row0 : list Z) (rest : matrix) (b : list Z) :
  row0 ≠ [] →
  let A := row0 :: rest in
  let n := Z.of_nat (length row0) in
  (encode_ilp_to_sat A b).1 =
    match collect ((λ c, (encode_constraint n b A c).1) <$> seq 0 (length A)) with
    | Ok body => Ok (complement_clauses n ++ body)
    | Raise e => Raise e
    end.
Proof.
  intros Hne A n. unfold encode_ilp_to_sat, A.
  destruct row0 as [|a row0]; [done |]. by apply constraints_loop_seq.
Qed.

Lemma encode_is_ok_shape (row0 : list Z) (rest : matrix) (b : list Z) :
  row0 ≠ [] →
  let A := row0 :: rest in
  is_ok (encode_ilp_to_sat A b).1 = true ↔
  (length A ≤ length b)%nat ∧
  Forall (λ row, (length row0 ≤ length row)%nat) A.
Proof.
  intros Hne. cbv zeta. rewrite (encode_clauses_collect row0 rest b Hne). cbv zeta.
  set (A := row0 :: rest).
  transitivity (is_ok (collect ((λ c, (encode_constraint (Z.of_nat (length row0)) b A c).1)
                         <$> seq 0 (length A))) = true).
  { by destruct (collect _). }
  rewrite collect_is_ok, forallb_forall. split.
  - intros Hall.
    assert (∀ c, (c < length A)%nat →
              (c < length b)%nat ∧
              Z.of_nat (length row0) ≤ Z.of_nat (length (A !!! c))) as Hc.
    { intros c Hc. apply encode_constraint_is_ok; [lia |].
      apply Hall, in_map_iff. exists c. split; [done |].
      apply in_seq. lia. }
    split.
    + destruct (Hc (length rest)); [cbn; lia | cbn in *; lia].
    + apply Forall_lookup. intros c row Hrow.
      destruct (Hc c) as [_ Hlen]; [by eapply lookup_lt_Some |].
      rewrite (list_lookup_total_correct _ _ _ Hrow) in Hlen. lia.
  - intros [Hb Hrows] r (c & <- & Hc%in_seq)%in_map_iff.
    apply encode_constraint_is_ok; [lia |]. split; [lia |].
    destruct (lookup_lt_is_Some_2 A c) as [row Hrow]; [lia |].
    rewrite (list_lookup_total_correct _ _ _ Hrow).
    rewrite Forall_lookup in Hrows. specialize (Hrows _ _ Hrow). cbn in Hrows. lia.
Qed.

Lemma encode_raises_index_error (row0 : list Z) (rest : matrix) (b : list Z) (e : exn) :
  row0 ≠ [] →
  (encode_ilp_to_sat (row0 :: rest) b).1 = Raise e → e = IndexError.
Proof.
  intros Hne. rewrite (encode_clauses_collect row0 rest b Hne). cbv zeta.
  destruct (collect _) eqn:Hcol; [done |].
  intros [= ->]. apply collect_raise in Hcol.
  apply list_elem_of_fmap in Hcol as (c & Hc & _).
  symmetry in Hc. by apply encode_constraint_raise in Hc.
Qed.

Lemma encode_matrix_rows (row0 : list Z) (rest : matrix) (b : list Z)
    (cls : list clause) (A' : matrix) :
  row0 ≠ [] →
  let A := row0 :: rest in
  encode_ilp_to_sat A b = (Ok cls, A') →
  length A' = length A ∧ ∀ c, A' !! c = row_after b c <$> A !! c.
Proof.
  intros Hne A Hrun.
  pose proof (constraints_loop_seq (Z.of_nat (length row0)) b A (length A) 0 A
                (complement_clauses (Z.of_nat (length row0))) eq_refl
                (λ _ _, eq_refl)) as [_ Hmat].
  cbv zeta in Hmat. unfold encode_ilp_to_sat, A in Hrun.
  destruct row0 as [|a row0]; [done |]. fold A in Hrun.
  rewrite Hrun in Hmat. destruct (Hmat eq_refl) as [Hlen Hrows].
  split; [done |]. intros c. rewrite Hrows.
  case_decide as Hc; [done |].
  rewrite !lookup_ge_None_2 by lia. done.
Qed.

(** X1: with a first row that is not empty, the call returns exactly when [b]
    has an entry for every row and no row is shorter than the first one;
    otherwise it raises [IndexError]. *)
Theorem encode_returns_iff (row0 : list Z) (rest : matrix) (b : list Z) :
  row0 ≠ [] →
  let A := row0 :: rest in
  (is_ok (encode_ilp_to_sat A b).1 = true ↔
   (length A ≤ length b)%nat ∧
   Forall (λ row, (length row0 ≤ length row)%nat) A) ∧
  (∀ e, (encode_ilp_to_sat A b).1 = Raise e → e = IndexError).
Proof.
  intros Hne A. split.
  - by apply encode_is_ok_shape.
  - intros e. by apply encode_raises_index_error.
Qed.

Lemma encode_returns_iff_witness :
  let row0 : list Z := [1; -2] in
  let A : matrix := [row0; [3]] in
  let b : list Z := [4; 5] in
  (is_ok (encode_ilp_to_sat A b).1 = true ↔
   (length A ≤ length b)%nat ∧
   Forall (λ row : list Z, (length row0 ≤ length row)%nat) A) ∧
  (∀ e, (encode_ilp_to_sat A b).1 = Raise e → e = IndexError).
Proof. apply (encode_returns_iff [1; -2] [[3]] [4; 5]). discriminate. Defined.

(** ** The caller's matrix after the call *)



Lemma fmap_abs_id (row : list Z) :
  Z.abs <$> row = row ↔ Forall (λ a, 0 ≤ a) row.
Proof.
  induction row as [|a row IH].
  - split; [by constructor | done].
  - rewrite fmap_cons, Forall_cons, <- IH. split.
    + intros [= Ha Hrow]. split; [lia | done].
    + intros [Ha ->]. f_equal. lia.
Qed.

(** X3: a call that returns (first row not empty) leaves the matrix as it was
    exactly when no row with a bound that is not negative holds a negative
    coefficient. *)
Theorem encode_matrix_unchanged_iff (row0 : list Z) (rest : matrix) (b : list Z)
    (cls : list clause) (A' : matrix) :
  row0 ≠ [] →
  let A := row0 :: rest in
  encode_ilp_to_sat A b = (Ok cls, A') →
  A' = A ↔
  ∀ c row bound, A !! c = Some row → b !! c = Some bound → 0 ≤ bound →
    Forall (λ a, 0 ≤ a) row.
Proof.
  intros Hne A Hrun. subst A.
  destruct (encode_matrix_rows row0 rest b cls A' Hne Hrun) as [Hlen Hrows].
  split.
  - intros -> c row bound Hrow Hbound Hpos.
    specialize (Hrows c). rewrite Hrow in Hrows. cbn in Hrows.
    unfold row_after in Hrows. rewrite Hbound in Hrows.
    destruct (Z.ltb_spec bound 0); [lia |].
    apply fmap_abs_id. congruence.
  - intros Hall. apply list_eq. intros c. rewrite Hrows.
    destruct ((row0 :: rest) !! c) as [row|] eqn:Hrow; [|done].
    cbn. f_equal. unfold row_after.
    destruct (b !! c) as [bound|] eqn:Hbound; [|done].
    destruct (Z.ltb_spec bound 0); [done |].
    apply fmap_abs_id. by eapply Hall.
Qed.

Lemma encode_matrix_unchanged_iff_witness :
  let A : matrix := [[1; 2]; [-3; 4]] in
  let b : list Z := [5; -6] in
  (encode_ilp_to_sat A b).2 = A ↔
  ∀ c row bound, A !! c = Some row → b !! c = Some bound → 0 ≤ bound →
    Forall (λ a, 0 ≤ a) row.
Proof.
  apply (encode_matrix_unchanged_iff [1; 2] [[-3; 4]] [5; -6]
           (clauses_of (encode_ilp_to_sat [[1; 2]; [-3; 4]] [5; -6]))).
  - discriminate.
  - vm_compute. reflexivity.
Defined.

(** ** Accumulator identifiers *)

(** X4: inside the block of one constraint the accumulators lie above the
    original and the complement variables, and two different cells (row
    [i], column [j <= max_sum]) never share an identifier. *)
Theorem accumulators_of_one_constraint (A : matrix) (n : Z) (c : nat)
    (i j i' j' : Z) :
  0 ≤ n → 0 ≤ i → 0 ≤ i' →
  0 ≤ j ≤ sum_abs (A !!! c) → 0 ≤ j' ≤ sum_abs (A !!! c) →
  2 * n < get_s_idx A n c i j ∧
  (get_s_idx A n c i j = get_s_idx A n c i' j' → i = i' ∧ j = j').
Proof.
  intros Hn Hi Hi' Hj Hj'. split; [apply get_s_idx_pos; lia |].
  unfold get_s_idx. set (m := sum_abs (A !!! c)) in *. intros Heq.
  assert (i * (m + 1) + j = i' * (m + 1) + j') as Hcell by lia.
  assert (i = i') as -> by nia. split; [done | lia].
Qed.

Lemma accumulators_of_one_constraint_witness :
  2 * 2 < get_s_idx [[1; -1]] 2 0 1 2 ∧
  (get_s_idx [[1; -1]] 2 0 1 2 = get_s_idx [[1; -1]] 2 0 2 0 → 1 = 2 ∧ 2 = 0).
Proof.
  apply (accumulators_of_one_constraint [[1; -1]] 2 0 1 2 2 0);
    vm_compute; intuition discriminate.
Defined.

Lemma spec_c_offset_uniform (A : matrix) (n m : Z) (c : nat) :
  (c ≤ length A)%nat →
  (∀ c', (c' < c)%nat → sum_abs (A !!! c') = m) →
  spec_c_offset A n c = Z.of_nat c * (n + 1) * (m + 1).
Proof.
  unfold spec_c_offset. induction c as [|c IH]; intros Hc Hm.
  - rewrite take_0. cbn. lia.
  - destruct (lookup_lt_is_Some_2 A c) as [row Hrow]; [lia |].
    rewrite (take_S_r _ _ _ Hrow), fmap_app, foldr_app. cbn [fmap list_fmap foldr].
    assert (∀ (l : list Z) (x : Z), foldr Z.add x l = foldr Z.add 0 l + x) as Hshift.
    { intros l x. induction l as [|y l IHl]; cbn; lia. }
    rewrite Hshift, IH by (try lia; intros; apply Hm; lia).
    specialize (Hm c ltac:(lia)).
    rewrite (list_lookup_total_correct _ _ _ Hrow) in Hm. rewrite Hm. lia.
Qed.

(** X5: when all rows have the same sum of absolute coefficients, the
    identifier of a cell is the cumulative one, and cells of different
    constraints, rows [0..n] or columns [0..max_sum] never share an
    identifier. *)
Theorem accumulators_with_equal_sums (A : matrix) (n m : Z) (c c' : nat)
    (i j i' j' : Z) :
  0 ≤ n →
  Forall (λ row, sum_abs row = m) A →
  (c < length A)%nat → (c' < length A)%nat →
  0 ≤ i ≤ n → 0 ≤ i' ≤ n → 0 ≤ j ≤ m → 0 ≤ j' ≤ m →
  get_s_idx A n c i j = spec_s_idx A n c i j ∧
  (get_s_idx A n c i j = get_s_idx A n c' i' j' → c = c' ∧ i = i' ∧ j = j').
Proof.
  intros Hn Hall Hc Hc' Hi Hi' Hj Hj'.
  assert (∀ k, (k < length A)%nat → sum_abs (A !!! k) = m) as Hm.
  { intros k Hk. destruct (lookup_lt_is_Some_2 A k) as [row Hrow]; [done |].
    rewrite (list_lookup_total_correct _ _ _ Hrow).
    rewrite Forall_lookup in Hall. by eapply Hall. }
  split.
  - unfold spec_s_idx, get_s_idx.
    rewrite (spec_c_offset_uniform A n m c), Hm by (try lia; intros; apply Hm; lia).
    done.
  - unfold get_s_idx. rewrite !Hm by done. intros Heq.
    assert ((Z.of_nat c * (n + 1) + i) * (m + 1) + j
            = (Z.of_nat c' * (n + 1) + i') * (m + 1) + j') as Hcell by lia.
    assert (Z.of_nat c * (n + 1) + i = Z.of_nat c' * (n + 1) + i') as Hrow by nia.
    assert (Z.of_nat c = Z.of_nat c') by nia.
    split_and!; lia.
Qed.

Lemma accumulators_with_equal_sums_witness :
  let A : matrix := [[1; 1]; [-2; 0]] in
  get_s_idx A 2 1 0 0 = spec_s_idx A 2 1 0 0 ∧
  (get_s_idx A 2 1 0 0 = get_s_idx A 2 0 2 2 → 1%nat = 0%nat ∧ 0 = 2 ∧ 0 = 2).
Proof.
  apply (accumulators_with_equal_sums [[1; 1]; [-2; 0]] 2 2 1 0 0 0 2 2);
    try (cbn; lia).
  repeat constructor.
Defined.

(** * What the returned clauses mean *)

(** ** Sums of selected coefficients *)

Lemma bsum_app (β : nat → bool) (i0 : nat) (l1 l2 : list Z) :
  bsum β i0 (l1 ++ l2) = bsum β i0 l1 + bsum β (i0 + length l1) l2.
Proof.
  revert i0. induction l1 as [|a l1 IH]; intros i0.
  - cbn. by rewrite Nat.add_0_r.
  - cbn [app bsum length]. rewrite IH.
    replace (S i0 + length l1)%nat with (i0 + S (length l1))%nat by lia. lia.
Qed.

Lemma bsum_bounds (β : nat → bool) (i0 : nat) (l : list Z) :
  0 ≤ bsum β i0 l ≤ sum_abs l.
Proof.
  revert i0. induction l as [|a l IH]; intros i0; [done |].
  cbn [bsum]. rewrite sum_abs_cons. specialize (IH (S i0)).
  destruct (β i0); lia.
Qed.

Lemma bsum_ext (β β' : nat → bool) (i0 : nat) (l : list Z) :
  (∀ i, (i0 ≤ i < i0 + length l)%nat → β i = β' i) →
  bsum β i0 l = bsum β' i0 l.
Proof.
  revert i0. induction l as [|a l IH]; intros i0 Hext; [done |].
  cbn [bsum]. rewrite Hext by (cbn; lia). f_equal.
  apply IH. intros i Hi. apply Hext. cbn. lia.
Qed.

Lemma bsum_fmap_abs (β : nat → bool) (i0 : nat) (l : list Z) :
  bsum β i0 (Z.abs <$> l) = bsum β i0 l.
Proof.
  revert i0. induction l as [|a l IH]; intros i0; [done |].
  rewrite fmap_cons. cbn [bsum]. rewrite IH. destruct (β i0); lia.
Qed.

Lemma bsum_take_S (β : nat → bool) (l : list Z) (k : nat) (a : Z) :
  l !! k = Some a →
  bsum β 0 (take (S k) l) = bsum β 0 (take k l) + (if β k then Z.abs a else 0).
Proof.
  intros Ha. rewrite (take_S_r _ _ _ Ha), bsum_app. cbn [bsum].
  rewrite length_take_le by (apply lookup_lt_Some in Ha; lia).
  rewrite Nat.add_0_l. lia.
Qed.

Lemma sum_abs_take (l : list Z) (k : nat) : sum_abs (take k l) ≤ sum_abs l.
Proof.
  revert k. induction l as [|a l IH]; intros [|k]; cbn [take]; try done.
  - apply sum_abs_nonneg.
  - rewrite !sum_abs_cons. specialize (IH k). lia.
Qed.

(** ** Literals of positive identifiers *)

Lemma lit_true_pos (v : Z → bool) (k : Z) : 0 < k → lit_true v k = v k.
Proof.
  intros Hk. unfold lit_true. rewrite (proj2 (Z.ltb_lt 0 k)) by done.
  by rewrite Z.abs_eq by lia.
Qed.

Lemma lit_true_neg (v : Z → bool) (k : Z) : 0 < k → lit_true v (- k) = negb (v k).
Proof.
  intros Hk. unfold lit_true. rewrite (proj2 (Z.ltb_ge 0 (- k))) by lia.
  by rewrite Z.abs_opp, Z.abs_eq by lia.
Qed.

(** The clauses of one cell say that [S[i][j]] holds exactly when: the
    literal is true and [S[i-1][j - w]] holds (with [j >= w]), or the
    literal is false and [S[i-1][j]] holds. *)
Lemma cell_clauses_meaning (A : matrix) (n : Z) (c : nat) (v : Z → bool)
    (w x i j : Z) :
  0 ≤ n → 1 ≤ i → 0 ≤ j → 0 < x →
  cnf_true v (cell_clauses A n c w x i j) = true ↔
  v (get_s_idx A n c i j) =
    if v x
    then (if j <? w then false else v (get_s_idx A n c (i - 1) (j - w)))
    else v (get_s_idx A n c (i - 1) j).
Proof.
  intros Hn Hi Hj Hx. unfold cell_clauses.
  pose proof (get_s_idx_pos A n c i j).
  pose proof (get_s_idx_pos A n c (i - 1) j).
  destruct (Z.ltb_spec j w) as [Hw|Hw].
  - cbn [cnf_true forallb clause_true existsb].
    rewrite !lit_true_neg, !lit_true_pos by lia.
    destruct (v x), (v (get_s_idx A n c i j)), (v (get_s_idx A n c (i - 1) j));
      cbn; intuition congruence.
  - pose proof (get_s_idx_pos A n c (i - 1) (j - w)).
    cbn [cnf_true forallb clause_true existsb].
    rewrite !lit_true_neg, !lit_true_pos by lia.
    destruct (v x), (v (get_s_idx A n c i j)), (v (get_s_idx A n c (i - 1) j)),
      (v (get_s_idx A n c (i - 1) (j - w))); cbn; intuition congruence.
Qed.

(** ** The loops, clause by clause *)

Lemma cnf_true_cons (v : Z → bool) (cl : clause) (cls : list clause) :
  cnf_true v (cl :: cls) = clause_true v cl && cnf_true v cls.
Proof. reflexivity. Qed.

Lemma cnf_true_app (v : Z → bool) (l1 l2 : list clause) :
  cnf_true v (l1 ++ l2) = cnf_true v l1 && cnf_true v l2.
Proof. unfold cnf_true. apply forallb_app. Qed.

Lemma cnf_true_bind {X} (v : Z → bool) (f : X → list clause) (l : list X) :
  cnf_true v (l ≫= f) = true ↔ ∀ x, x ∈ l → cnf_true v (f x) = true.
Proof.
  induction l as [|x l IH].
  - split; [by intros _ x Hx%elem_of_nil | done].
  - rewrite bind_cons, cnf_true_app, andb_true_iff, IH. split.
    + intros [Hx Hl] y [->|Hy]%elem_of_cons; auto.
    + intros Hall. split; [apply Hall; left | intros y Hy; apply Hall; by right].
Qed.

Lemma variables_loop_meaning (A : matrix) (n : Z) (c : nat) (v : Z → bool)
    (coeffs : list Z) (max_sum : Z) (idxs : list Z) (cls : list clause) :
  variables_loop A n c coeffs max_sum idxs = Ok cls →
  cnf_true v cls = true ↔
  ∀ i coeff j, i ∈ idxs → coeffs !! Z.to_nat (i - 1) = Some coeff →
    0 ≤ j ≤ max_sum →
    cnf_true v (cell_clauses A n c (Z.abs coeff) (var_i n coeff i) i j) = true.
Proof.
  revert cls. induction idxs as [|i idxs IH]; intros cls Hrun.
  - cbn in Hrun. injection Hrun as <-. split; [|done].
    by intros _ i coeff j Hi%elem_of_nil.
  - cbn [variables_loop] in Hrun. unfold variable_clauses in Hrun.
    destruct (coeffs !! Z.to_nat (i - 1)) as [coeff|] eqn:Hc; [|done].
    destruct (variables_loop A n c coeffs max_sum idxs) as [rest|]; [|done].
    injection Hrun as <-.
    rewrite cnf_true_app, andb_true_iff, (IH rest eq_refl), cnf_true_bind.
    split.
    + intros [Hi Hrest] i' coeff' j [->|Hi']%elem_of_cons Hc' Hj.
      * assert (coeff' = coeff) as -> by congruence.
        apply Hi, elem_of_range. lia.
      * by apply Hrest.
    + intros Hall. split.
      * intros j Hj%elem_of_range. apply Hall; [left | done | lia].
      * intros i' coeff' j Hi'. apply Hall. by right.
Qed.

(** ** The accumulators of one constraint *)

Section accumulators.
Context (A : matrix) (N : nat) (c : nat) (v : Z → bool) (coeffs : list Z).
Hypothesis coeffs_nonneg : Forall (λ a, 0 ≤ a) coeffs.
Hypothesis coeffs_long : (N ≤ length coeffs)%nat.

Local Abbreviation n := (Z.of_nat N).
Local Abbreviation ms := (sum_abs coeffs).
Local Abbreviation S_ := (get_s_idx A n c).
Local Abbreviation β := (λ i : nat, v (Z.of_nat i + 1)).
Local Abbreviation psum := (λ k : nat, bsum β 0 (take k coeffs)).

Lemma base_clauses_meaning :
  cnf_true v (base_clauses A n c ms) = true ↔
  ∀ j, 0 ≤ j ≤ ms → v (S_ 0 j) = (0 =? j).
Proof.
  unfold base_clauses. rewrite cnf_true_cons.
  rewrite andb_true_iff, cnf_true_Forall, Forall_fmap, Forall_forall.
  cbn [clause_true existsb compose]. split.
  - intros [H0 Hj] j Hj'. destruct (decide (j = 0)) as [->|Hne].
    + rewrite orb_false_r, lit_true_pos in H0; [done |].
      pose proof (get_s_idx_pos A n c 0 0). lia.
    + specialize (Hj j). rewrite elem_of_range in Hj. specialize (Hj ltac:(lia)).
      cbn in Hj. rewrite orb_false_r, lit_true_neg in Hj.
      * rewrite (proj2 (Z.eqb_neq 0 j)) by lia. by destruct (v (S_ 0 j)).
      * pose proof (get_s_idx_pos A n c 0 j). lia.
  - intros Heq. split.
    + rewrite orb_false_r, lit_true_pos.
      * apply Heq. pose proof (sum_abs_nonneg coeffs). lia.
      * pose proof (get_s_idx_pos A n c 0 0). lia.
    + intros j Hj%elem_of_range. cbn. rewrite orb_false_r, lit_true_neg.
      * rewrite Heq by lia. by rewrite (proj2 (Z.eqb_neq 0 j)) by lia.
      * pose proof (get_s_idx_pos A n c 0 j). lia.
Qed.

Lemma variable_rows_meaning (vars : list clause) :
  variables_loop A n c coeffs ms (range 1 (n + 1)) = Ok vars →
  cnf_true v vars = true ↔
  ∀ (k : nat) (a j : Z), coeffs !! k = Some a → (k < N)%nat → 0 ≤ j ≤ ms →
    v (S_ (Z.of_nat (S k)) j) =
      if β k
      then (if j <? a then false else v (S_ (Z.of_nat k) (j - a)))
      else v (S_ (Z.of_nat k) j).
Proof.
  intros Hrun. rewrite (variables_loop_meaning _ _ _ v _ _ _ _ Hrun). split.
  - intros Hcells k a j Ha Hk Hj.
    specialize (Hcells (Z.of_nat (S k)) a j).
    rewrite elem_of_range in Hcells.
    replace (Z.to_nat (Z.of_nat (S k) - 1)) with k in Hcells by lia.
    specialize (Hcells ltac:(lia) Ha Hj).
    rewrite Forall_lookup in coeffs_nonneg. pose proof (coeffs_nonneg _ _ Ha) as Hpos.
    cbn in Hpos. unfold var_i in Hcells.
    rewrite (proj2 (Z.leb_le 0 a)), Z.abs_eq in Hcells by done.
    apply cell_clauses_meaning in Hcells; [|lia..].
    replace (Z.of_nat (S k) - 1) with (Z.of_nat k) in Hcells by lia.
    replace (Z.of_nat (S k)) with (Z.of_nat k + 1) in Hcells at 2 by lia.
    done.
  - intros Heq i a j Hi%elem_of_range Ha Hj.
    pose proof (lookup_lt_Some _ _ _ Ha) as Hlt.
    rewrite Forall_lookup in coeffs_nonneg. pose proof (coeffs_nonneg _ _ Ha) as Hpos.
    cbn in Hpos. unfold var_i.
    rewrite (proj2 (Z.leb_le 0 a)), Z.abs_eq by done.
    apply cell_clauses_meaning; [lia..|].
    specialize (Heq (Z.to_nat (i - 1)) a j Ha ltac:(lia) Hj).
    replace (Z.of_nat (S (Z.to_nat (i - 1)))) with i in Heq by lia.
    replace (Z.of_nat (Z.to_nat (i - 1))) with (i - 1) in Heq by lia.
    replace (i - 1 + 1) with i in Heq by lia.
    done.
Qed.

(** The base row and the recurrence have one solution: [S[k][j]] says that
    the first [k] selected coefficients sum to [j]. *)
Lemma recurrence_solution :
  ((∀ j, 0 ≤ j ≤ ms → v (S_ 0 j) = (0 =? j)) ∧
   (∀ (k : nat) (a j : Z), coeffs !! k = Some a → (k < N)%nat → 0 ≤ j ≤ ms →
      v (S_ (Z.of_nat (S k)) j) =
        if β k
        then (if j <? a then false else v (S_ (Z.of_nat k) (j - a)))
        else v (S_ (Z.of_nat k) j))) ↔
  ∀ (k : nat) (j : Z), (k ≤ N)%nat → 0 ≤ j ≤ ms →
    v (S_ (Z.of_nat k) j) = (psum k =? j).
Proof.
  split.
  - intros [Hbase Hstep] k. induction k as [|k IH]; intros j Hk Hj.
    + rewrite take_0. cbn [bsum]. by apply Hbase.
    + destruct (lookup_lt_is_Some_2 coeffs k) as [a Ha]; [lia |].
      rewrite (Hstep k a j Ha) by (done || lia).
      rewrite (bsum_take_S _ _ _ _ Ha).
      rewrite Forall_lookup in coeffs_nonneg.
      pose proof (coeffs_nonneg _ _ Ha) as Hpos. cbn in Hpos.
      pose proof (bsum_bounds β 0 (take k coeffs)) as [Hlo _].
      rewrite Z.abs_eq by done. destruct (β k).
      * destruct (Z.ltb_spec j a).
        -- symmetry. apply Z.eqb_neq. lia.
        -- rewrite IH by lia.
           destruct (Z.eqb_spec (bsum β 0 (take k coeffs)) (j - a)),
             (Z.eqb_spec (bsum β 0 (take k coeffs) + a) j); (done || lia).
      * rewrite IH by lia. by rewrite Z.add_0_r.
  - intros Hsol. split.
    + intros j Hj. pose proof (Hsol 0%nat j ltac:(lia) Hj) as H0.
      by rewrite take_0 in H0.
    + intros k a j Ha Hk Hj. rewrite !Hsol by (done || lia).
      rewrite (bsum_take_S _ _ _ _ Ha).
      rewrite Forall_lookup in coeffs_nonneg.
      pose proof (coeffs_nonneg _ _ Ha) as Hpos. cbn in Hpos.
      pose proof (bsum_bounds β 0 (take k coeffs)) as [Hlo _].
      rewrite Z.abs_eq by done. destruct (β k).
      * destruct (Z.ltb_spec j a).
        -- apply Z.eqb_neq. lia.
        -- rewrite Hsol by lia.
           destruct (Z.eqb_spec (bsum β 0 (take k coeffs)) (j - a)),
             (Z.eqb_spec (bsum β 0 (take k coeffs) + a) j); (done || lia).
      * rewrite Hsol by lia. by rewrite Z.add_0_r.
Qed.

(** Given the accumulators of the last row, the bounding step compares the
    selected sum with the bound. *)
Lemma bounding_clauses_meaning (geq : bool) (bound : Z) :
  0 ≤ bound →
  (∀ j, 0 ≤ j ≤ ms → v (S_ n j) = (psum N =? j)) →
  cnf_true v (bounding_clauses A n c geq bound ms) = true ↔
  if geq then bound ≤ psum N else psum N ≤ bound.
Proof.
  intros Hb Hlast.
  pose proof (bsum_bounds β 0 (take N coeffs)) as [Hlo Hhi].
  pose proof (sum_abs_take coeffs N) as Htake.
  assert (∀ k, 0 ≤ k → 0 < S_ n k) as Hid.
  { intros k Hk. pose proof (get_s_idx_pos A n c n k). lia. }
  unfold bounding_clauses. destruct geq; cbn [negb].
  - destruct (Z.ltb_spec ms bound) as [Hlt|Hge].
    + assert (cnf_true v [[1]; [-1]] = false) as ->
        by (apply (cnf_contradiction v _ 1);
            [lia | repeat constructor | repeat constructor]).
      split; [done | lia].
    + cbn [cnf_true forallb]. rewrite andb_true_r.
      unfold clause_true. rewrite existsb_exists. split.
      * intros (lit & Hin & Hlit).
        apply list_elem_of_In, list_elem_of_fmap in Hin as (k & -> & Hk%elem_of_range).
        rewrite lit_true_pos, Hlast in Hlit by (try apply Hid; lia).
        apply Z.eqb_eq in Hlit. lia.
      * intros Hle. exists (S_ n (psum N)). split.
        -- apply list_elem_of_In, list_elem_of_fmap. exists (psum N).
           split; [done |]. apply elem_of_range. lia.
        -- rewrite lit_true_pos, Hlast by (try apply Hid; lia). apply Z.eqb_refl.
  - rewrite cnf_true_Forall, Forall_fmap, Forall_forall. split.
    + intros Hall. destruct (Z.le_gt_cases (psum N) bound) as [|Hgt]; [done |].
      specialize (Hall (psum N)). rewrite elem_of_range in Hall.
      specialize (Hall ltac:(lia)). cbn in Hall.
      rewrite orb_false_r, lit_true_neg, Hlast, Z.eqb_refl in Hall
        by (try apply Hid; lia).
      done.
    + intros Hle k Hk%elem_of_range. cbn.
      rewrite orb_false_r, lit_true_neg, Hlast by (try apply Hid; lia).
      apply negb_true_iff, Z.eqb_neq. lia.
Qed.

(** The clauses of a constraint hold exactly when every accumulator
    [S[k][j]] says that the first [k] selected coefficients sum to [j] and
    the selected sum of all [N] is on the right side of the bound. *)
Lemma constraint_clauses_meaning (bound : Z) (geq : bool) (new : list clause) :
  0 ≤ bound →
  constraint_clauses A n c coeffs bound geq = Ok new →
  cnf_true v new = true ↔
  (∀ (k : nat) (j : Z), (k ≤ N)%nat → 0 ≤ j ≤ ms →
     v (S_ (Z.of_nat k) j) = (psum k =? j)) ∧
  (if geq then bound ≤ psum N else psum N ≤ bound).
Proof.
  intros Hb Hrun. unfold constraint_clauses in Hrun.
  destruct (variables_loop _ _ _ _ _ _) as [vars|] eqn:Hvars; [|done].
  assert (new = base_clauses A n c ms ++ vars ++
                bounding_clauses A n c geq bound ms) as -> by congruence.
  rewrite !cnf_true_app, !andb_true_iff.
  rewrite base_clauses_meaning, (variable_rows_meaning vars Hvars).
  split.
  - intros (Hbase & Hstep & Hbound).
    pose proof (proj1 recurrence_solution (conj Hbase Hstep)) as Hsol.
    split; [done |].
    apply bounding_clauses_meaning in Hbound; [done | done |].
    intros j Hj. by apply Hsol.
  - intros [Hsol Hcmp].
    destruct (proj2 recurrence_solution Hsol) as [Hbase Hstep].
    split_and!; [done | done |].
    apply bounding_clauses_meaning; [done | | done].
    intros j Hj. by apply Hsol.
Qed.
End accumulators.

(** ** Every constraint of a system *)

Lemma collect_Ok_elem (rs : list (result (list clause))) (body : list clause)
    (r : result (list clause)) :
  collect rs = Ok body → r ∈ rs →
  ∃ blk, r = Ok blk ∧ ∀ cl, cl ∈ blk → cl ∈ body.
Proof.
  revert body. induction rs as [|[cls|e] rs IH]; intros body Hcol Hr.
  - by apply elem_of_nil in Hr.
  - cbn [collect] in Hcol. destruct (collect rs) as [rest|]; [|done].
    injection Hcol as <-. apply elem_of_cons in Hr as [->|Hr].
    + exists cls. split; [done |]. intros cl Hcl. apply elem_of_app. by left.
    + destruct (IH rest eq_refl Hr) as (blk & -> & Hsub).
      exists blk. split; [done |]. intros cl Hcl. apply elem_of_app. right. auto.
  - done.
Qed.

Lemma normalized_bound_nonneg (row : list Z) (bound : Z) :
  0 ≤ normalized_bound row bound.
Proof.
  unfold normalized_bound.
  pose proof (pos_sum_nonneg row). pose proof (neg_sum_nonneg row).
  destruct (Z.ltb_spec bound 0); lia.
Qed.

Lemma Forall_abs_nonneg (row : list Z) : Forall (λ a, 0 ≤ a) (Z.abs <$> row).
Proof. apply Forall_fmap, Forall_forall. intros a _. cbn. lia. Qed.

(** The clauses of constraint [c], in the system or alone, hold exactly
    when its accumulators count the selected sum and that sum is on the
    right side of the normalised bound. *)
Lemma encode_constraint_meaning (N : nat) (b : list Z) (A : matrix) (c : nat)
    (row : list Z) (bound : Z) (blk : list clause) (v : Z → bool) :
  A !! c = Some row → b !! c = Some bound →
  (encode_constraint (Z.of_nat N) b A c).1 = Ok blk →
  cnf_true v blk = true ↔
  (∀ (k : nat) (j : Z), (k ≤ N)%nat → 0 ≤ j ≤ sum_abs row →
     v (get_s_idx A (Z.of_nat N) c (Z.of_nat k) j)
     = (selected_sum v k row =? j)) ∧
  (if bound <? 0 then normalized_bound row bound ≤ selected_sum v N row
   else selected_sum v N row ≤ normalized_bound row bound).
Proof.
  intros Hrow Hbound Hblk.
  rewrite (encode_constraint_exact _ _ _ _ _ Hbound) in Hblk. cbn [fst] in Hblk.
  rewrite (list_lookup_total_correct _ _ _ Hrow) in Hblk.
  assert (N ≤ length (Z.abs <$> row))%nat as Hlong.
  { pose proof (constraint_clauses_is_ok A (Z.of_nat N) c (Z.abs <$> row)
                  (normalized_bound row bound) (bound <? 0) ltac:(lia)) as [H _].
    rewrite Hblk in H. specialize (H eq_refl). lia. }
  rewrite (constraint_clauses_meaning A N c v (Z.abs <$> row)
             (Forall_abs_nonneg row) Hlong _ _ _
             (normalized_bound_nonneg row bound) Hblk).
  rewrite sum_abs_fmap_abs.
  assert (∀ k, bsum (λ i : nat, v (Z.of_nat i + 1)) 0 (take k (Z.abs <$> row))
               = selected_sum v k row) as Hsum.
  { intros k. unfold selected_sum. by rewrite <- fmap_take, bsum_fmap_abs. }
  rewrite Hsum. split; intros [Hacc Hcmp]; (split; [|done]);
    intros k j Hk Hj; specialize (Hacc k j Hk Hj); by rewrite ?Hsum in *.
Qed.

Lemma system_sound (row0 : list Z) (rest : matrix) (b : list Z)
    (cls : list clause) (A' : matrix) (v : Z → bool) :
  row0 ≠ [] →
  encode_ilp_to_sat (row0 :: rest) b = (Ok cls, A') →
  cnf_true v cls = true →
  ∀ c row bound, (row0 :: rest) !! c = Some row → b !! c = Some bound →
    if bound <? 0
    then normalized_bound row bound ≤ selected_sum v (length row0) row
    else selected_sum v (length row0) row ≤ normalized_bound row bound.
Proof.
  intros Hne Hrun Hsat c row bound Hrow Hbound.
  pose proof (encode_clauses_collect row0 rest b Hne) as Hcol.
  cbv zeta in Hcol. rewrite Hrun in Hcol. cbn [fst] in Hcol.
  destruct (collect _) as [body|] eqn:Hbody; [|done].
  injection Hcol as ->.
  destruct (collect_Ok_elem _ _
              (encode_constraint (Z.of_nat (length row0)) b (row0 :: rest) c).1
              Hbody) as (blk & Hblk & Hsub).
  { apply list_elem_of_fmap. exists c. split; [done |].
    apply elem_of_seq. apply lookup_lt_Some in Hrow. lia. }
  assert (cnf_true v blk = true) as Hblk_sat.
  { apply cnf_true_Forall, Forall_forall. intros cl Hcl.
    apply (cnf_true_elem v _ cl Hsat), elem_of_app. right. by apply Hsub. }
  by apply (encode_constraint_meaning _ _ _ _ _ _ _ v Hrow Hbound Hblk) in Hblk_sat
    as [_ Hcmp].
Qed.

(** X6: an assignment that satisfies the returned clauses satisfies, for every
    constraint, the inequality over absolute coefficients that the code
    builds: the sum of [|a_i|] over the true variables [i] is at most
    [bound + neg_sum row] when [bound >= 0], and at least
    [-bound + pos_sum row] when [bound < 0]. *)
Theorem encoded_clauses_sound (row0 : list Z) (rest : matrix) (b : list Z)
    (cls : list clause) (A' : matrix) (v : Z → bool) :
  row0 ≠ [] →
  let A := row0 :: rest in
  let N := length row0 in
  encode_ilp_to_sat A b = (Ok cls, A') →
  cnf_true v cls = true →
  ∀ c row bound, A !! c = Some row → b !! c = Some bound →
    if bound <? 0 then normalized_bound row bound ≤ selected_sum v N row
    else selected_sum v N row ≤ normalized_bound row bound.
Proof.
  intros Hne A N Hrun Hsat. subst A N.
  by apply (system_sound row0 rest b cls A').
Qed.

Lemma encoded_clauses_sound_witness :
  selected_sum (λ k, bool_decide (k ∈ [1; 4; 5; 9; 12])) 2 [1; -1]
  ≤ normalized_bound [1; -1] 0.
Proof.
  apply (encoded_clauses_sound [1; -1] [] [0]
           (clauses_of (encode_ilp_to_sat [[1; -1]] [0]))
           (encode_ilp_to_sat [[1; -1]] [0]).2
           (λ k, bool_decide (k ∈ [1; 4; 5; 9; 12]))
           ltac:(discriminate) ltac:(vm_compute; reflexivity)
           ltac:(vm_compute; reflexivity) 0%nat [1; -1] 0 eq_refl eq_refl).
Defined.

(** ** A system of one constraint, exactly *)

Lemma bsum_shift (β : nat → bool) (i0 : nat) (l : list Z) :
  bsum β (S i0) l = bsum (λ i, β (S i)) i0 l.
Proof.
  revert i0. induction l as [|a l IH]; intros i0; [done |].
  cbn [bsum]. by rewrite IH.
Qed.

Lemma dot_cons (a x0 : Z) (row x : list Z) :
  dot (a :: row) (x0 :: x) = a * x0 + dot row x.
Proof. reflexivity. Qed.

(** On a 0/1 vector the selected sum is the dot product with the absolute
    coefficients. *)
Lemma bsum_dot (row x : list Z) :
  Forall (λ xi, xi = 0 ∨ xi = 1) x →
  length x = length row →
  bsum (λ i, bool_decide (x !! i = Some 1)) 0 row = dot (Z.abs <$> row) x.
Proof.
  revert x. induction row as [|a row IH]; intros [|x0 x] Hbits Hlen; try done.
  apply Forall_cons in Hbits as [Hx0 Hbits].
  rewrite fmap_cons, dot_cons. cbn [bsum]. rewrite bsum_shift.
  rewrite <- (IH x Hbits) by (cbn in Hlen; lia). cbn [lookup list_lookup].
  destruct Hx0 as [-> | ->].
  - destruct (bool_decide _) eqn:E; [by apply bool_decide_eq_true in E |].
    rewrite Z.mul_0_r. reflexivity.
  - destruct (bool_decide _) eqn:E; [|by apply bool_decide_eq_false in E].
    rewrite Z.mul_1_r. reflexivity.
Qed.

Lemma dot_abs_bounds (row x : list Z) :
  Forall (λ xi, xi = 0 ∨ xi = 1) x →
  0 ≤ dot (Z.abs <$> row) x ≤ sum_abs row.
Proof.
  revert x. induction row as [|a row IH]; intros [|x0 x] Hbits; try done.
  - change (dot (Z.abs <$> a :: row) []) with 0.
    pose proof (sum_abs_nonneg (a :: row)). lia.
  - apply Forall_cons in Hbits as [Hx0 Hbits].
    rewrite fmap_cons, dot_cons, sum_abs_cons. specialize (IH x Hbits).
    destruct Hx0 as [-> | ->]; lia.
Qed.

Lemma selected_sum_extends (row x : list Z) (v : Z → bool) (k : nat) :
  length x = length row →
  extends_x x v →
  selected_sum v k row
  = bsum (λ i, bool_decide (x !! i = Some 1)) 0 (take k row).
Proof.
  intros Hlen Hext. unfold selected_sum. apply bsum_ext.
  intros i Hi. rewrite length_take in Hi.
  destruct (lookup_lt_is_Some_2 x i) as [xi Hxi]; [lia |].
  destruct (Hext i xi Hxi) as [-> _]. rewrite Hxi.
  apply bool_decide_ext. split; [by intros -> | by intros [= ->]].
Qed.

Lemma canonical_extends (row x : list Z) :
  length x = length row → extends_x x (canonical_assignment row x).
Proof.
  intros Hlen i xi Hxi. pose proof (lookup_lt_Some _ _ _ Hxi) as Hi.
  unfold canonical_assignment. rewrite Hlen. split.
  - rewrite (proj2 (Z.leb_le _ _)) by lia.
    replace (Z.to_nat (Z.of_nat i + 1 - 1)) with i by lia. rewrite Hxi.
    apply bool_decide_ext. split; [by intros [= ->] | by intros ->].
  - rewrite (proj2 (Z.leb_gt _ _)), (proj2 (Z.leb_le _ _)) by lia.
    replace (Z.to_nat (Z.of_nat i + 1 + Z.of_nat (length row) - 1
                       - Z.of_nat (length row))) with i by lia.
    rewrite Hxi. f_equal.
    apply bool_decide_ext. split; [by intros [= ->] | by intros ->].
Qed.

Lemma canonical_accumulator (row x : list Z) (k : nat) (j : Z) :
  0 ≤ j ≤ sum_abs row →
  canonical_assignment row x
    (get_s_idx [row] (Z.of_nat (length row)) 0 (Z.of_nat k) j)
  = (bsum (λ i, bool_decide (x !! i = Some 1)) 0 (take k row) =? j).
Proof.
  intros Hj. unfold canonical_assignment, get_s_idx, base_s_idx.
  change ([row] !!! 0%nat) with row.
  set (n := Z.of_nat (length row)). set (ms := sum_abs row) in *.
  assert (0 ≤ Z.of_nat k * (ms + 1)) by nia.
  rewrite !(proj2 (Z.leb_gt _ _)) by lia. cbv zeta.
  replace (2 * n + 1 + Z.of_nat 0 * (n + 1) * (ms + 1) + Z.of_nat k * (ms + 1) + j
           - (2 * n + 1)) with (Z.of_nat k * (ms + 1) + j) by lia.
  rewrite <- (Z.div_unique (Z.of_nat k * (ms + 1) + j) (ms + 1) (Z.of_nat k) j)
    by lia.
  rewrite <- (Z.mod_unique (Z.of_nat k * (ms + 1) + j) (ms + 1) (Z.of_nat k) j)
    by lia.
  by rewrite Nat2Z.id.
Qed.

Lemma complement_clauses_meaning (n : Z) (v : Z → bool) :
  0 ≤ n →
  cnf_true v (complement_clauses n) = true ↔
  ∀ i, 1 ≤ i ≤ n → v (i + n) = negb (v i).
Proof.
  intros Hn. unfold complement_clauses. rewrite cnf_true_bind.
  setoid_rewrite elem_of_range. split.
  - intros Hall i Hi. specialize (Hall (i - 1) ltac:(lia)).
    replace (i - 1 + 1) with i in Hall by lia.
    cbn [cnf_true forallb clause_true existsb] in Hall.
    rewrite !lit_true_neg, !lit_true_pos in Hall by lia.
    destruct (v i), (v (i + n)); done.
  - intros Hall i Hi. specialize (Hall (i + 1) ltac:(lia)).
    cbn [cnf_true forallb clause_true existsb].
    rewrite !lit_true_neg, !lit_true_pos by lia.
    rewrite Hall. by destruct (v (i + 1)).
Qed.

Lemma extends_complement (x : list Z) (v : Z → bool) (i : Z) :
  extends_x x v → 1 ≤ i ≤ Z.of_nat (length x) →
  v (i + Z.of_nat (length x)) = negb (v i).
Proof.
  intros Hext Hi.
  destruct (lookup_lt_is_Some_2 x (Z.to_nat (i - 1))) as [xi Hxi]; [lia |].
  destruct (Hext _ _ Hxi) as [H1 H2].
  replace (Z.of_nat (Z.to_nat (i - 1)) + 1) with i in * by lia.
  by rewrite H1, H2.
Qed.

(** For a system of one constraint over a 0/1 vector [x]: some assignment
    that extends [x] satisfies the returned clauses exactly when the
    absolute coefficients selected by [x] sum to at most
    [bound + neg_sum row] (for [bound >= 0]) or to at least
    [-bound + pos_sum row] (for [bound < 0]). *)
Lemma single_row_meaning (row x : list Z) (bound : Z) :
  row ≠ [] →
  length x = length row →
  Forall (λ xi, xi = 0 ∨ xi = 1) x →
  ∃ cls A',
    encode_ilp_to_sat [row] [bound] = (Ok cls, A') ∧
    ((∃ v, extends_x x v ∧ cnf_true v cls = true) ↔
     if bound <? 0 then normalized_bound row bound ≤ dot (Z.abs <$> row) x
     else dot (Z.abs <$> row) x ≤ normalized_bound row bound).
Proof.
  intros Hne Hlen Hbits.
  pose proof (encode_is_ok_shape row [] [bound] Hne) as [_ Hok].
  pose proof (encode_clauses_collect row [] [bound] Hne) as Hcol.
  cbv zeta in Hok, Hcol. specialize (Hok ltac:(split; [done | by repeat constructor])).
  destruct (encode_ilp_to_sat [row] [bound]) as [[cls|e] A'] eqn:Hrun; [|done].
  clear Hok. exists cls, A'. split; [done |].
  cbn [fst length seq fmap list_fmap collect] in Hcol.
  destruct (encode_constraint _ _ _ _).1 as [blk|] eqn:Hblk; [|done].
  rewrite app_nil_r in Hcol. injection Hcol as ->.
  set (n := Z.of_nat (length row)) in *.
  rewrite <- (bsum_dot row x Hbits Hlen).
  assert (∀ v, extends_x x v →
            selected_sum v (length row) row
            = bsum (λ i, bool_decide (x !! i = Some 1)) 0 row) as Hsel.
  { intros v Hv. by rewrite (selected_sum_extends row x v _ Hlen Hv), firstn_all. }
  split.
  - intros (v & Hext & Hsat).
    rewrite cnf_true_app, andb_true_iff in Hsat. destruct Hsat as [_ Hsat].
    apply (encode_constraint_meaning (length row) [bound] [row] 0 row bound blk v
             eq_refl eq_refl Hblk) in Hsat as [_ Hcmp].
    by rewrite (Hsel v Hext) in Hcmp.
  - intros Hcmp. exists (canonical_assignment row x).
    pose proof (canonical_extends row x Hlen) as Hext.
    split; [done |]. rewrite cnf_true_app, andb_true_iff. split.
    + apply complement_clauses_meaning; [lia |]. intros i Hi.
      unfold n. rewrite <- Hlen. apply extends_complement; [done | lia].
    + apply (encode_constraint_meaning (length row) [bound] [row] 0 row bound blk _
               eq_refl eq_refl Hblk).
      split; [|by rewrite (Hsel _ Hext)].
      intros k j Hk Hj.
      rewrite (selected_sum_extends row x _ k Hlen Hext).
      by apply canonical_accumulator.
Qed.

(** X7: for a system of one constraint and a 0/1 vector [x]: some assignment
    that extends [x] satisfies the returned clauses exactly when the
    absolute coefficients at the positions where [x] is 1 sum to at most
    [bound + neg_sum row] (for [bound >= 0]) or to at least
    [-bound + pos_sum row] (for [bound < 0]). *)
Theorem single_constraint_meaning (row x : list Z) (bound : Z) :
  row ≠ [] →
  length x = length row →
  Forall (λ xi, xi = 0 ∨ xi = 1) x →
  ∃ cls A',
    encode_ilp_to_sat [row] [bound] = (Ok cls, A') ∧
    ((∃ v, extends_x x v ∧ cnf_true v cls = true) ↔
     if bound <? 0 then normalized_bound row bound ≤ dot (Z.abs <$> row) x
     else dot (Z.abs <$> row) x ≤ normalized_bound row bound).
Proof. apply single_row_meaning. Qed.

Lemma single_constraint_meaning_witness :
  ∃ cls A',
    encode_ilp_to_sat [[2; -3]] [1] = (Ok cls, A') ∧
    ((∃ v, extends_x [1; 0] v ∧ cnf_true v cls = true) ↔
     if 1 <? 0 then normalized_bound [2; -3] 1 ≤ dot (Z.abs <$> [2; -3]) [1; 0]
     else dot (Z.abs <$> [2; -3]) [1; 0] ≤ normalized_bound [2; -3] 1).
Proof.
  apply (single_constraint_meaning [2; -3] [1; 0] 1).
  - discriminate.
  - reflexivity.
  - repeat constructor; lia.
Defined.

Lemma same_sign_sums (row : list Z) :
  (Forall (λ a, 0 ≤ a) row → neg_sum row = 0 ∧ pos_sum row = sum_abs row) ∧
  (Forall (λ a, a ≤ 0) row → pos_sum row = 0 ∧ neg_sum row = sum_abs row).
Proof.
  induction row as [|a row [IHpos IHneg]]; [done |].
  rewrite neg_sum_cons, pos_sum_cons, sum_abs_cons. split.
  - intros [Ha Hrow]%Forall_cons. destruct (IHpos Hrow) as [-> ->].
    destruct (Z.ltb_spec a 0), (Z.ltb_spec 0 a); lia.
  - intros [Ha Hrow]%Forall_cons. destruct (IHneg Hrow) as [-> ->].
    destruct (Z.ltb_spec a 0), (Z.ltb_spec 0 a); lia.
Qed.

Lemma same_sign_dot (row x : list Z) :
  (Forall (λ a, 0 ≤ a) row → dot row x = dot (Z.abs <$> row) x) ∧
  (Forall (λ a, a ≤ 0) row → dot row x = - dot (Z.abs <$> row) x).
Proof.
  revert x. induction row as [|a row IH]; intros x; [done |].
  destruct x as [|x0 x]; [done |]. destruct (IH x) as [IHpos IHneg].
  rewrite fmap_cons, !dot_cons. split.
  - intros [Ha Hrow]%Forall_cons. rewrite (IHpos Hrow), (Z.abs_eq a) by lia. lia.
  - intros [Ha Hrow]%Forall_cons. rewrite (IHneg Hrow), (Z.abs_neq a) by lia. lia.
Qed.

(** X8: for a system of one constraint whose coefficients all have the same
    sign, the encoding is sound and complete: a 0/1 vector satisfies
    [row . x <= bound] exactly when some assignment that extends it
    satisfies the returned clauses. *)
Theorem same_sign_constraint_correct (row x : list Z) (bound : Z) :
  row ≠ [] →
  length x = length row →
  Forall (λ xi, xi = 0 ∨ xi = 1) x →
  Forall (λ a, 0 ≤ a) row ∨ Forall (λ a, a ≤ 0) row →
  ∃ cls A',
    encode_ilp_to_sat [row] [bound] = (Ok cls, A') ∧
    ((∃ v, extends_x x v ∧ cnf_true v cls = true) ↔
     satisfies_ilp [row] [bound] x = true).
Proof.
  intros Hne Hlen Hbits Hsign.
  destruct (single_row_meaning row x bound Hne Hlen Hbits) as (cls & A' & Hrun & Hiff).
  exists cls, A'. split; [done |]. rewrite Hiff. clear Hiff Hrun.
  unfold satisfies_ilp. cbn [zip zip_with forallb fst snd].
  rewrite andb_true_r, Z.leb_le. unfold normalized_bound.
  pose proof (dot_abs_bounds row x Hbits) as Hd.
  destruct (same_sign_sums row) as [Hpos_s Hneg_s].
  destruct (same_sign_dot row x) as [Hpos_d Hneg_d].
  destruct Hsign as [Hpos|Hneg].
  - destruct (Hpos_s Hpos) as [-> ->]. rewrite (Hpos_d Hpos).
    destruct (Z.ltb_spec bound 0); lia.
  - destruct (Hneg_s Hneg) as [-> ->]. rewrite (Hneg_d Hneg).
    destruct (Z.ltb_spec bound 0); lia.
Qed.

Lemma same_sign_constraint_correct_witness :
  ∃ cls A',
    encode_ilp_to_sat [[-2; -3]] [-3] = (Ok cls, A') ∧
    ((∃ v, extends_x [0; 1] v ∧ cnf_true v cls = true) ↔
     satisfies_ilp [[-2; -3]] [-3] [0; 1] = true).
Proof.
  apply (same_sign_constraint_correct [-2; -3] [0; 1] (-3)).
  - discriminate.
  - reflexivity.
  - repeat constructor; lia.
  - right. repeat constructor; lia.
Defined.

(** ** Complement variables *)

Lemma collect_Forall (P : clause → Prop) (rs : list (result (list clause)))
    (body : list clause) :
  collect rs = Ok body →
  (∀ blk, Ok blk ∈ rs → Forall P blk) →
  Forall P body.
Proof.
  revert body. induction rs as [|[cls|e] rs IH]; intros body Hcol Hall.
  - by injection Hcol as <-.
  - cbn [collect] in Hcol. destruct (collect rs) as [rest|]; [|done].
    injection Hcol as <-. apply Forall_app. split.
    + apply Hall. left.
    + apply IH; [done |]. intros blk Hblk. apply Hall. by right.
  - done.
Qed.

(** Takes a goal about every literal of explicit clauses to its literals. *)
Local Ltac each_literal :=
  repeat first [apply Forall_nil_2 | apply Forall_cons_2].

Lemma constraint_clauses_off_complement (A : matrix) (n : Z) (c : nat)
    (coeffs : list Z) (bound : Z) (geq : bool) (new : list clause) :
  1 ≤ n → 0 ≤ bound →
  Forall (λ a, 0 ≤ a) coeffs →
  constraint_clauses A n c coeffs bound geq = Ok new →
  Forall (Forall (off_complement n)) new.
Proof.
  intros Hn Hb Hpos Hrun. unfold constraint_clauses in Hrun.
  destruct (variables_loop _ _ _ _ _ _) as [vars|] eqn:Hvars; [|done].
  assert (new = base_clauses A n c (sum_abs coeffs) ++ vars ++
                bounding_clauses A n c geq bound (sum_abs coeffs)) as ->
    by congruence.
  assert (∀ i j, 0 ≤ i → 0 ≤ j → off_complement n (get_s_idx A n c i j))
    as Hacc.
  { intros i j Hi Hj. pose proof (get_s_idx_pos A n c i j).
    unfold off_complement. right. lia. }
  assert (∀ i j, 0 ≤ i → 0 ≤ j → off_complement n (- get_s_idx A n c i j))
    as Hacc'.
  { intros i j Hi Hj. pose proof (get_s_idx_pos A n c i j).
    unfold off_complement. right. lia. }
  rewrite !Forall_app. split_and!.
  - unfold base_clauses. apply Forall_cons. split.
    + each_literal. apply Hacc; lia.
    + apply Forall_fmap, Forall_forall. intros j Hj%elem_of_range. cbn.
      each_literal. apply Hacc'; lia.
  - eapply variables_loop_Forall; [exact Hvars |].
    intros i coeff j Hi%elem_of_range Hc Hj.
    rewrite Forall_lookup in Hpos. pose proof (Hpos _ _ Hc) as Ha. cbn in Ha.
    unfold var_i. rewrite (proj2 (Z.leb_le 0 coeff)) by done.
    assert (off_complement n i) as Hi1 by (unfold off_complement; left; lia).
    assert (off_complement n (- i)) as Hi2 by (unfold off_complement; left; lia).
    unfold cell_clauses. destruct (Z.ltb_spec j (Z.abs coeff));
      each_literal; first [done | apply Hacc; lia | apply Hacc'; lia].
  - unfold bounding_clauses. destruct geq; cbn [negb].
    + destruct (Z.ltb_spec (sum_abs coeffs) bound).
      * each_literal; unfold off_complement; left; lia.
      * apply Forall_cons_2; [|apply Forall_nil_2].
        apply Forall_fmap, Forall_forall.
        intros k Hk%elem_of_range. cbn. apply Hacc; lia.
    + apply Forall_fmap, Forall_forall. intros k Hk%elem_of_range. cbn.
      each_literal. apply Hacc'; lia.
Qed.

(** X9: the returned list is the complement clauses followed by clauses in
    which no complement variable [n+1 .. 2n] occurs: the complements are
    tied to the originals and to nothing else. *)
Theorem complements_only_defined (row0 : list Z) (rest : matrix) (b : list Z)
    (cls : list clause) (A' : matrix) :
  row0 ≠ [] →
  let n := Z.of_nat (length row0) in
  encode_ilp_to_sat (row0 :: rest) b = (Ok cls, A') →
  ∃ body,
    cls = complement_clauses n ++ body ∧
    Forall (Forall (off_complement n)) body.
Proof.
  intros Hne n Hrun.
  pose proof (encode_clauses_collect row0 rest b Hne) as Hcol.
  cbv zeta in Hcol. rewrite Hrun in Hcol. cbn [fst] in Hcol.
  destruct (collect _) as [body|] eqn:Hbody; [|done].
  injection Hcol as ->. exists body. split; [done |].
  eapply collect_Forall; [exact Hbody |].
  intros blk (c & Hblk & Hc)%list_elem_of_fmap.
  destruct (b !! c) as [bound|] eqn:Hbound.
  - rewrite (encode_constraint_exact _ _ _ _ _ Hbound) in Hblk. cbn [fst] in Hblk.
    symmetry in Hblk.
    eapply constraint_clauses_off_complement; [| | | exact Hblk].
    + unfold n. destruct row0 as [|a row0]; [done | cbn [length]; lia].
    + apply normalized_bound_nonneg.
    + apply Forall_abs_nonneg.
  - by rewrite encode_constraint_no_bound in Hblk.
Qed.

Lemma complements_only_defined_witness :
  ∃ body,
    clauses_of (encode_ilp_to_sat [[1; -1]; [-2; 0]] [0; -1])
    = complement_clauses 2 ++ body ∧
    Forall (Forall (off_complement 2)) body.
Proof.
  apply (complements_only_defined [1; -1] [[-2; 0]] [0; -1] _
           (encode_ilp_to_sat [[1; -1]; [-2; 0]] [0; -1]).2).
  - discriminate.
  - vm_compute. reflexivity.
Defined.

(** ** How many clauses *)

Lemma bind_length_le {X} (f : X → list clause) (l : list X) (m : Z) :
  (∀ x, x ∈ l → Z.of_nat (length (f x)) ≤ m) →
  Z.of_nat (length (l ≫= f)) ≤ Z.of_nat (length l) * m.
Proof.
  induction l as [|x l IH]; intros Hf; [done |].
  rewrite bind_cons, length_app. cbn [length].
  specialize (Hf x (list_elem_of_here _ _)) as Hx.
  specialize (IH (λ y Hy, Hf y (list_elem_of_further _ _ _ Hy))). lia.
Qed.

Lemma length_range (lo hi : Z) : Z.of_nat (length (range lo hi)) = Z.max 0 (hi - lo).
Proof. unfold range. rewrite length_seqZ. lia. Qed.

Lemma variables_loop_length (A : matrix) (n : Z) (c : nat) (coeffs : list Z)
    (max_sum : Z) (idxs : list Z) (cls : list clause) :
  0 ≤ max_sum →
  variables_loop A n c coeffs max_sum idxs = Ok cls →
  Z.of_nat (length cls) ≤ Z.of_nat (length idxs) * (5 * (max_sum + 1)).
Proof.
  intros Hms. revert cls. induction idxs as [|i idxs IH]; intros cls Hrun.
  - by injection Hrun as <-.
  - cbn [variables_loop] in Hrun. unfold variable_clauses in Hrun.
    destruct (coeffs !! Z.to_nat (i - 1)) as [coeff|]; [|done].
    destruct (variables_loop A n c coeffs max_sum idxs) as [rest|]; [|done].
    injection Hrun as <-. rewrite length_app, Nat2Z.inj_add. cbn [length].
    specialize (IH rest eq_refl).
    match goal with
    | |- Z.of_nat (length ?l) + _ ≤ _ =>
        assert (Z.of_nat (length l) ≤ 5 * (max_sum + 1)) as Hcells
    end.
    { etransitivity; [apply bind_length_le with (m := 5) |].
      - intros j _. unfold cell_clauses. destruct (j <? Z.abs coeff); cbn; lia.
      - rewrite length_range. lia. }
    nia.
Qed.

Lemma constraint_clauses_length (A : matrix) (n : Z) (c : nat)
    (coeffs : list Z) (bound : Z) (geq : bool) (new : list clause) :
  0 ≤ n → 0 ≤ bound →
  constraint_clauses A n c coeffs bound geq = Ok new →
  Z.of_nat (length new) ≤ clause_budget n coeffs.
Proof.
  intros Hn Hb Hrun. unfold constraint_clauses in Hrun.
  destruct (variables_loop _ _ _ _ _ _) as [vars|] eqn:Hvars; [|done].
  assert (new = base_clauses A n c (sum_abs coeffs) ++ vars ++
                bounding_clauses A n c geq bound (sum_abs coeffs)) as ->
    by congruence.
  pose proof (sum_abs_nonneg coeffs) as Hms.
  apply variables_loop_length in Hvars; [|done].
  rewrite length_range in Hvars.
  rewrite !length_app. unfold base_clauses, bounding_clauses, clause_budget.
  cbn [length]. rewrite length_fmap.
  pose proof (length_range 1 (sum_abs coeffs + 1)) as Hbase.
  assert (Z.of_nat (length (if negb geq
            then (λ k, [- get_s_idx A n c n k])
                   <$> range (bound + 1) (sum_abs coeffs + 1)
            else if sum_abs coeffs <? bound then [[1]; [-1]]
            else [(λ k, get_s_idx A n c n k)
                    <$> range bound (sum_abs coeffs + 1)]))
          ≤ sum_abs coeffs + 2) as Hbound.
  { destruct geq; cbn [negb].
    - destruct (sum_abs coeffs <? bound); cbn; lia.
    - rewrite length_fmap, length_range. lia. }
  nia.
Qed.

Lemma collect_length (n : Z) (b : list Z) (A : matrix) (m k : nat)
    (body : list clause) :
  0 ≤ n → (k + m ≤ length A)%nat →
  collect ((λ c, (encode_constraint n b A c).1) <$> seq k m) = Ok body →
  Z.of_nat (length body)
  ≤ foldr Z.add 0 (clause_budget n <$> take m (drop k A)).
Proof.
  intros Hn. revert k body. induction m as [|m IH]; intros k body Hk Hcol.
  - injection Hcol as <-. by rewrite take_0.
  - cbn [seq fmap list_fmap collect] in Hcol.
    destruct (encode_constraint n b A k).1 as [blk|] eqn:Hblk; [|done].
    change (list_fmap _ _ ?f ?l) with (f <$> l) in Hcol.
    destruct (collect _) as [rest|] eqn:Hrest; [|done].
    injection Hcol as <-. specialize (IH (S k) rest ltac:(lia) Hrest).
    rewrite length_app, Nat2Z.inj_add.
    destruct (b !! k) as [bound|] eqn:Hbound;
      [|by rewrite encode_constraint_no_bound in Hblk].
    rewrite (encode_constraint_exact _ _ _ _ _ Hbound) in Hblk. cbn [fst] in Hblk.
    apply constraint_clauses_length in Hblk;
      [|done | apply normalized_bound_nonneg].
    unfold clause_budget in Hblk. rewrite sum_abs_fmap_abs in Hblk.
    destruct (lookup_lt_is_Some_2 A k) as [row Hrow]; [lia |].
    rewrite (drop_S _ _ _ Hrow). cbn [take]. rewrite fmap_cons. cbn [foldr].
    rewrite (list_lookup_total_correct _ _ _ Hrow) in Hblk.
    unfold clause_budget at 1. lia.
Qed.

(** X10: the call returns at most [2n] clauses plus, for every row,
    [(max_sum + 1) * (5n + 2) + 1] clauses, where [max_sum] is the sum of
    the absolute coefficients of the row. *)
Theorem clause_count_bound (row0 : list Z) (rest : matrix) (b : list Z)
    (cls : list clause) (A' : matrix) :
  row0 ≠ [] →
  let A := row0 :: rest in
  let n := Z.of_nat (length row0) in
  encode_ilp_to_sat A b = (Ok cls, A') →
  Z.of_nat (length cls) ≤ 2 * n + foldr Z.add 0 (clause_budget n <$> A).
Proof.
  intros Hne A n Hrun. subst A n.
  pose proof (encode_clauses_collect row0 rest b Hne) as Hcol.
  cbv zeta in Hcol. rewrite Hrun in Hcol. cbn [fst] in Hcol.
  destruct (collect _) as [body|] eqn:Hbody; [|done].
  injection Hcol as ->.
  apply collect_length in Hbody; [|lia | done].
  rewrite drop_0, firstn_all in Hbody.
  rewrite length_app, Nat2Z.inj_add.
  assert (Z.of_nat (length (complement_clauses (Z.of_nat (length row0))))
          ≤ 2 * Z.of_nat (length row0)); [|lia].
  unfold complement_clauses.
  etransitivity; [apply bind_length_le with (m := 2) |].
  - intros i _. cbn. lia.
  - rewrite length_range. lia.
Qed.

Lemma clause_count_bound_witness :
  let A : matrix := [[1; -1]; [-2; 0]] in
  let b : list Z := [0; -1] in
  Z.of_nat (length (clauses_of (encode_ilp_to_sat A b)))
  ≤ 2 * 2 + foldr Z.add 0 (clause_budget 2 <$> A).
Proof.
  apply (clause_count_bound [1; -1] [[-2; 0]] [0; -1] _
           (encode_ilp_to_sat [[1; -1]; [-2; 0]] [0; -1]).2).
  - discriminate.
  - vm_compute. reflexivity.
Defined.

(** * Decoding and solving *)

(** ** [decode_solution] *)

Lemma decode_solution_Some (sol : gmap Z bool) (n : Z) :
  decode_solution (Some sol) n = Ok (decoded_entry sol <$> range 0 n).
Proof. unfold decode_solution. by destruct (range 0 n). Qed.

Lemma decode_solution_None (n : Z) :
  1 ≤ n → decode_solution None n = Raise AttributeError.
Proof. intros Hn. unfold decode_solution. by rewrite range_cons by lia. Qed.

Lemma lookup_range (lo hi : Z) (i : nat) (k : Z) :
  range lo hi !! i = Some k ↔ k = lo + Z.of_nat i ∧ lo + Z.of_nat i < hi.
Proof. unfold range. rewrite lookup_seqZ. lia. Qed.

(** X11: the decoded dict has one entry per original variable, under distinct
    names, each 0 or 1; identifiers outside [1..n] are never read, so two
    solutions that agree on [1..n] decode alike. *)
Theorem decode_solution_entries (sol : gmap Z bool) (n : Z) :
  ∃ d,
    decode_solution (Some sol) n = Ok d ∧
    length d = Z.to_nat n ∧
    NoDup d.*1 ∧
    Forall (λ kv, kv.2 = 0 ∨ kv.2 = 1) d ∧
    ∀ sol' : gmap Z bool,
      (∀ i, 1 ≤ i ≤ n → sol' !! i = sol !! i) →
      decode_solution (Some sol') n = Ok d.
Proof.
  exists (decoded_entry sol <$> range 0 n). split_and!.
  - apply decode_solution_Some.
  - rewrite length_fmap. unfold range. rewrite length_seqZ. lia.
  - rewrite <- list_fmap_compose. apply NoDup_fmap_2; [|apply NoDup_seqZ].
    intros i j Hij. cbn in Hij. injection Hij as Hij.
    change (pretty (i + 1) = pretty (j + 1)) in Hij.
    apply (inj pretty) in Hij. lia.
  - apply Forall_fmap, Forall_forall. intros i _. cbn.
    destruct (default false (sol !! (i + 1))); auto.
  - intros sol' Hagree. rewrite decode_solution_Some. f_equal.
    apply list_fmap_ext. intros k i Hi%lookup_range.
    unfold decoded_entry. rewrite Hagree by lia. done.
Qed.

Lemma decode_solution_entries_witness :
  decode_solution (Some {[2 := true; 7 := true]}) 2
  = decode_solution (Some {[2 := true]}) 2.
Proof.
  destruct (decode_solution_entries {[2 := true]} 2)
    as (d & Hd & _ & _ & _ & Hagree).
  rewrite Hd. apply Hagree.
  intros i Hi. assert (i = 1 ∨ i = 2) as [-> | ->] by lia; reflexivity.
Defined.

(** X12: Round trip: a solution that gives the original variables the values of
    a 0/1 vector [x] (a missing key counting as false) decodes to [x]. *)
Theorem decode_solution_round_trip (sol : gmap Z bool) (x : list Z) :
  Forall (λ xi, xi = 0 ∨ xi = 1) x →
  (∀ (i : nat) (xi : Z), x !! i = Some xi →
     default false (sol !! (Z.of_nat i + 1)) = bool_decide (xi = 1)) →
  ∃ d, decode_solution (Some sol) (Z.of_nat (length x)) = Ok d ∧ d.*2 = x.
Proof.
  intros Hbits Hsol. eexists. split; [apply decode_solution_Some |].
  rewrite <- list_fmap_compose. apply list_eq. intros i.
  rewrite list_lookup_fmap. destruct (x !! i) as [xi|] eqn:Hxi.
  - pose proof (lookup_lt_Some _ _ _ Hxi) as Hi.
    rewrite (proj2 (lookup_range 0 (Z.of_nat (length x)) i (0 + Z.of_nat i)))
      by lia.
    cbn. rewrite Z.add_0_l, (Hsol i xi Hxi). f_equal.
    rewrite Forall_lookup in Hbits. destruct (Hbits _ _ Hxi) as [-> | ->]; done.
  - apply lookup_ge_None in Hxi.
    destruct (range 0 (Z.of_nat (length x)) !! i) as [k|] eqn:Hk; [|done].
    apply lookup_range in Hk. lia.
Qed.

Lemma decode_solution_round_trip_witness :
  ∃ d, decode_solution (Some {[1 := true; 3 := true; 4 := false]})
         (Z.of_nat (length [1; 0; 1])) = Ok d ∧ d.*2 = [1; 0; 1].
Proof.
  apply (decode_solution_round_trip {[1 := true; 3 := true; 4 := false]} [1; 0; 1]).
  - repeat constructor; lia.
  - intros [|[|[|i]]] xi Hxi; [| | |done]; injection Hxi as <-; by vm_compute.
Defined.

(** ** [max] over the literals *)

Lemma foldl_max_spec (m : Z) (ms : list Z) :
  foldl Z.max m ms ∈ m :: ms ∧ ∀ k, k ∈ m :: ms → k ≤ foldl Z.max m ms.
Proof.
  revert m. induction ms as [|a ms IH]; intros m.
  - cbn. split; [left |]. by intros k ->%list_elem_of_singleton.
  - cbn [foldl]. destruct (IH (Z.max m a)) as [Hin Hmax]. split.
    + apply elem_of_cons in Hin as [Heq|Hin].
      * rewrite Heq. destruct (Z.max_spec m a) as [[_ ->]|[_ ->]];
          [right; left | left].
      * right. by right.
    + intros k Hk. pose proof (Hmax (Z.max m a) ltac:(left)) as Hm.
      apply elem_of_cons in Hk as [->|Hk]; [lia |].
      apply elem_of_cons in Hk as [->|Hk]; [lia |].
      apply Hmax. by right.
Qed.

Lemma max_abs_lit_cases (clauses : list clause) :
  match max_abs_lit clauses with
  | Ok m =>
      (∃ lit, lit ∈ concat clauses ∧ Z.abs lit = m) ∧
      (∀ lit, lit ∈ concat clauses → Z.abs lit ≤ m)
  | Raise e => e = ValueError ∧ concat clauses = []
  end.
Proof.
  unfold max_abs_lit. destruct (Z.abs <$> concat clauses) as [|m ms] eqn:Habs.
  - split; [done |]. by apply fmap_nil_inv in Habs.
  - destruct (foldl_max_spec m ms) as [Hin Hmax]. rewrite <- Habs in Hin, Hmax.
    split.
    + apply list_elem_of_fmap in Hin as (lit & Heq & Hlit). eauto.
    + intros lit Hlit. apply Hmax, list_elem_of_fmap. eauto.
Qed.

(** X13: the variable count [solve_ilp] computes raises [ValueError]
    exactly when the clauses hold no literal at all (no clause, or empty
    clauses only); when it returns [m], some literal has magnitude [m] and
    none has a larger one. *)
Theorem max_abs_lit_spec (clauses : list clause) :
  (max_abs_lit clauses = Raise ValueError ↔ concat clauses = []) ∧
  ∀ m, max_abs_lit clauses = Ok m →
    (∃ lit, lit ∈ concat clauses ∧ Z.abs lit = m) ∧
    (∀ lit, lit ∈ concat clauses → Z.abs lit ≤ m).
Proof.
  pose proof (max_abs_lit_cases clauses) as Hcases. split.
  - split.
    + intros Hraise. rewrite Hraise in Hcases. by destruct Hcases.
    + intros Hnil. unfold max_abs_lit. by rewrite Hnil.
  - intros m Hm. by rewrite Hm in Hcases.
Qed.

Lemma max_abs_lit_spec_witness :
  (∃ lit, lit ∈ concat [[1; -3]; [2]] ∧ Z.abs lit = 3) ∧
  (∀ lit, lit ∈ concat [[1; -3]; [2]] → Z.abs lit ≤ 3).
Proof.
  apply (proj2 (max_abs_lit_spec [[1; -3]; [2]]) 3). reflexivity.
Defined.

(** ** [solve_ilp] on a well-shaped system *)

Lemma elem_of_concat_2 (cls : list clause) (cl : clause) (lit : Z) :
  cl ∈ cls → lit ∈ cl → lit ∈ concat cls.
Proof.
  intros Hcl Hlit. induction Hcl as [cl cls|cl cl' cls _ IH]; cbn [concat].
  - apply elem_of_app. by left.
  - apply elem_of_app. right. by apply IH.
Qed.

Lemma row_after_length (b : list Z) (c : nat) (row : list Z) :
  length (row_after b c row) = length row.
Proof.
  unfold row_after. destruct (b !! c) as [bound|]; [|done].
  destruct (bound <? 0); [done | by rewrite length_fmap].
Qed.

(** The first accumulator of the first constraint, variable [2n + 1], is
    among the returned literals. *)
Lemma first_accumulator_emitted (row0 : list Z) (rest : matrix) (b : list Z)
    (cls : list clause) (A' : matrix) :
  row0 ≠ [] →
  encode_ilp_to_sat (row0 :: rest) b = (Ok cls, A') →
  2 * Z.of_nat (length row0) + 1 ∈ concat cls.
Proof.
  intros Hne Hrun.
  pose proof (encode_clauses_collect row0 rest b Hne) as Hcol.
  pose proof (encode_is_ok_shape row0 rest b Hne) as [Hshape _].
  cbv zeta in Hcol, Hshape. rewrite Hrun in Hcol, Hshape. cbn [fst] in Hcol.
  destruct (Hshape eq_refl) as [Hb _]. cbn [length] in Hb.
  destruct (collect _) as [body|] eqn:Hbody; [|done].
  injection Hcol as ->.
  destruct (collect_Ok_elem _ _
              (encode_constraint (Z.of_nat (length row0)) b (row0 :: rest) 0).1
              Hbody) as (blk & Hblk & Hsub).
  { apply list_elem_of_fmap. exists 0%nat. split; [done |].
    apply elem_of_seq. cbn [length]. lia. }
  destruct (lookup_lt_is_Some_2 b 0) as [bound Hbound]; [lia |].
  rewrite (encode_constraint_exact _ _ _ _ _ Hbound) in Hblk. cbn [fst] in Hblk.
  unfold constraint_clauses in Hblk.
  destruct (variables_loop _ _ _ _ _ _) as [vars|]; [|done].
  set (n := Z.of_nat (length row0)) in *.
  set (A := row0 :: rest) in *.
  assert ([get_s_idx A n 0 0 0] ∈ blk) as Hin.
  { injection Hblk as <-. unfold base_clauses. left. }
  eapply elem_of_concat_2.
  - apply elem_of_app. right. apply Hsub, Hin.
  - replace (2 * n + 1) with (get_s_idx A n 0 0 0); [left |].
    unfold get_s_idx, base_s_idx. lia.
Qed.

(** X14: on a system whose first row is not empty, with a bound for every row
    and no row shorter than the first, [solve_ilp] raises nothing of its
    own: the variable count exists and covers the first accumulator, and
    the outcome is decided by the answer of the solver.  A solver that
    answers "satisfiable" without an assignment makes it raise
    [AttributeError]; otherwise the decoded dict has one entry for each of
    the [n] original variables. *)
Theorem solve_ilp_outcome
    (solve_sat : string → bool → result (bool * option (gmap Z bool)))
    (row0 : list Z) (rest : matrix) (b : list Z) (use_uv : bool) :
  row0 ≠ [] →
  let A := row0 :: rest in
  let n := Z.of_nat (length row0) in
  (length A ≤ length b)%nat →
  Forall (λ row, (length row0 ≤ length row)%nat) A →
  ∃ cls m,
    (encode_ilp_to_sat A b).1 = Ok cls ∧
    max_abs_lit cls = Ok m ∧
    2 * n + 1 ≤ m ∧
    solve_ilp solve_sat A b use_uv =
      match solve_sat (clauses_to_dimacs cls m) use_uv with
      | Raise e => Raise e
      | Ok (false, _) => Ok (false, None)
      | Ok (true, None) => Raise AttributeError
      | Ok (true, Some sol) =>
          Ok (true, Some (decoded_entry sol <$> range 0 n))
      end.
Proof.
  intros Hne A n Hb Hrows. subst A n.
  pose proof (encode_is_ok_shape row0 rest b Hne) as [_ Hok].
  cbv zeta in Hok. specialize (Hok (conj Hb Hrows)).
  destruct (encode_ilp_to_sat (row0 :: rest) b) as [[cls|e] A'] eqn:Hrun; [|done].
  clear Hok. pose proof (first_accumulator_emitted _ _ _ _ _ Hne Hrun) as Hlit.
  pose proof (max_abs_lit_cases cls) as Hmax.
  destruct (max_abs_lit cls) as [m|e] eqn:Hm.
  2:{ destruct Hmax as [_ Hnil]. rewrite Hnil in Hlit. by apply elem_of_nil in Hlit. }
  destruct Hmax as [_ Hmax]. specialize (Hmax _ Hlit).
  exists cls, m. split_and!; [done | done | lia |].
  destruct (encode_matrix_rows row0 rest b cls A' Hne Hrun) as [_ Hmat].
  specialize (Hmat 0%nat). cbn [lookup list_lookup fmap option_fmap option_map] in Hmat.
  unfold solve_ilp. rewrite Hrun, Hm.
  destruct (solve_sat (clauses_to_dimacs cls m) use_uv) as [[[|] sol]|e]; try done.
  rewrite Hmat, row_after_length. destruct sol as [sol|].
  - by rewrite decode_solution_Some.
  - rewrite decode_solution_None; [done |].
    destruct row0; [done | cbn [length]; lia].
Qed.

Lemma solve_ilp_outcome_witness :
  let solve_sat : string → bool → result (bool * option (gmap Z bool)) :=
    λ _ _, Ok (true, Some {[1 := true]}) in
  let A : matrix := [[1; -1]] in
  let b : list Z := [0] in
  ∃ cls m,
    (encode_ilp_to_sat A b).1 = Ok cls ∧
    max_abs_lit cls = Ok m ∧
    2 * 2 + 1 ≤ m ∧
    solve_ilp solve_sat A b false =
      match solve_sat (clauses_to_dimacs cls m) false with
      | Raise e => Raise e
      | Ok (false, _) => Ok (false, None)
      | Ok (true, None) => Raise AttributeError
      | Ok (true, Some sol) =>
          Ok (true, Some (decoded_entry sol <$> range 0 2))
      end.
Proof.
  apply (solve_ilp_outcome (λ _ _, Ok (true, Some {[1 := true]}))
           [1; -1] [] [0] false).
  - discriminate.
  - cbn. lia.
  - repeat constructor.
Defined.

(** * The DIMACS text *)

Lemma free_of_app (sep : Ascii.ascii) (s t : string) :
  free_of sep (s +:+ t) ↔ free_of sep s ∧ free_of sep t.
Proof.
  induction s as [|a s IH]; [cbn; tauto |].
  change (free_of sep (String a s +:+ t)) with (a ≠ sep ∧ free_of sep (s +:+ t)).
  change (free_of sep (String a s)) with (a ≠ sep ∧ free_of sep s).
  rewrite IH. tauto.
Qed.

Lemma split_on_free (sep : Ascii.ascii) (s : string) :
  free_of sep s → split_on sep s = [s].
Proof.
  induction s as [|a s IH]; [done |]. intros [Ha Hs]. cbn [split_on].
  rewrite decide_False by done. by rewrite (IH Hs).
Qed.

Lemma split_on_app (sep : Ascii.ascii) (s t : string) :
  free_of sep s →
  split_on sep (s +:+ String sep t) = s :: split_on sep t.
Proof.
  induction s as [|a s IH]; intros Hs.
  - change (EmptyString +:+ String sep t) with (String sep t).
    cbn [split_on]. by rewrite decide_True.
  - destruct Hs as [Ha Hs].
    change (String a s +:+ String sep t) with (String a (s +:+ String sep t)).
    cbn [split_on]. rewrite decide_False by done. by rewrite (IH Hs).
Qed.

Lemma join_cons (sep s : string) (rest : list string) :
  rest ≠ [] → join sep (s :: rest) = s +:+ sep +:+ join sep rest.
Proof. by destruct rest. Qed.

(** Joining with a separator and splitting at it gives the parts back,
    when no part holds the separator. *)
Lemma split_on_join (sep : Ascii.ascii) (parts : list string) :
  parts ≠ [] →
  Forall (free_of sep) parts →
  split_on sep (join (String sep EmptyString) parts) = parts.
Proof.
  induction parts as [|s parts IH]; [done |]. intros _ [Hs Hparts]%Forall_cons.
  destruct parts as [|t parts].
  - by apply split_on_free.
  - rewrite join_cons by done.
    change (String sep EmptyString +:+ ?r) with (String sep r).
    rewrite split_on_app by done. by rewrite IH.
Qed.

Lemma pretty_N_go_numeral (x : N) (s : string) :
  numeral_chars s → numeral_chars (pretty_N_go x s).
Proof.
  revert s. induction (N.lt_wf_0 x) as [x _ IH]; intros s Hs.
  assert (x = 0 ∨ 0 < x)%N as [->|Hx] by lia.
  - by rewrite pretty_N_go_0.
  - rewrite pretty_N_go_step by done. apply IH; [by apply N.div_lt |].
    split; [|done]. unfold pretty_N_char.
    repeat case_match; apply (bool_decide_unpack _); by vm_compute.
Qed.

Lemma pretty_N_numeral (x : N) : numeral_chars (pretty x).
Proof.
  unfold pretty, pretty_N. case_decide.
  - split; [apply (bool_decide_unpack _); by vm_compute | done].
  - by apply pretty_N_go_numeral.
Qed.

Lemma pretty_Z_numeral (z : Z) : numeral_chars (pretty z).
Proof.
  destruct z as [|p|p]; cbn.
  - split; [apply (bool_decide_unpack _); by vm_compute | done].
  - apply (pretty_N_numeral (Npos p)).
  - split; [apply (bool_decide_unpack _); by vm_compute |].
    apply (pretty_N_numeral (Npos p)).
Qed.

Lemma numeral_free_of (sep : Ascii.ascii) (s : string) :
  sep ∉ numeral_alphabet →
  numeral_chars s → free_of sep s.
Proof.
  intros Hsep. induction s as [|a s IH]; [done |].
  intros [Ha Hs]. split; [|by apply IH]. by intros ->.
Qed.

Lemma line_feed_not_numeral :
  line_feed ∉ numeral_alphabet.
Proof. apply (bool_decide_unpack _). by vm_compute. Qed.

Lemma space_not_numeral :
  space ∉ numeral_alphabet.
Proof. apply (bool_decide_unpack _). by vm_compute. Qed.

Lemma string_app_assoc (s t u : string) : (s +:+ t) +:+ u = s +:+ (t +:+ u).
Proof.
  induction s as [|a s IH]; [done |].
  change (String a ((s +:+ t) +:+ u) = String a (s +:+ (t +:+ u))). by rewrite IH.
Qed.

Lemma join_snoc (sep : string) (parts : list string) (t : string) :
  parts ≠ [] →
  join sep (parts ++ [t]) = join sep parts +:+ sep +:+ t.
Proof.
  induction parts as [|s parts IH]; [done |]. intros _.
  destruct parts as [|s' parts]; [done |].
  change ((s :: s' :: parts) ++ [t]) with (s :: ((s' :: parts) ++ [t])).
  rewrite (join_cons sep s ((s' :: parts) ++ [t])) by done.
  rewrite IH by done. rewrite (join_cons sep s (s' :: parts)) by done.
  by rewrite !string_app_assoc.
Qed.

Lemma free_of_join (c : Ascii.ascii) (sep : string) (parts : list string) :
  free_of c sep → Forall (free_of c) parts → free_of c (join sep parts).
Proof.
  intros Hsep. induction parts as [|s parts IH]; [done |].
  intros [Hs Hparts]%Forall_cons. destruct parts as [|t parts]; [done |].
  rewrite join_cons by done. rewrite !free_of_app. auto.
Qed.

Lemma pretty_free_of_Z (c : Ascii.ascii) (z : Z) :
  c ∉ numeral_alphabet → free_of c (pretty z).
Proof. intros Hc. apply numeral_free_of; [done | apply pretty_Z_numeral]. Qed.

Lemma clause_line_free_of_line_feed (cl : clause) :
  free_of line_feed (join " " (pretty <$> cl) +:+ " 0").
Proof.
  apply free_of_app. split.
  - apply free_of_join; [by vm_compute |].
    apply Forall_fmap, Forall_forall. intros lit _.
    apply pretty_free_of_Z, line_feed_not_numeral.
  - by vm_compute.
Qed.

(** X15: the text [clauses_to_dimacs] builds, split at the line feeds, is the
    header line (with the given variable count and the number of
    clauses) followed by exactly one line for each clause; the line of a
    clause that is not empty, split at the spaces, is the decimal numerals
    of its literals in order, followed by [0]. *)
Theorem dimacs_text_layout (clauses : list clause) (num_vars : Z) :
  let lines := split_on line_feed (clauses_to_dimacs clauses num_vars) in
  lines =
    ("p cnf " +:+ pretty num_vars +:+ " " +:+ pretty (length clauses))
    :: ((λ cl : clause, join " " (pretty <$> cl) +:+ " 0") <$> clauses) ∧
  ∀ cl : clause, cl ≠ [] →
    split_on space (join " " (pretty <$> cl) +:+ " 0")
    = (pretty <$> cl) ++ ["0"].
Proof.
  split.
  - unfold clauses_to_dimacs.
    change newline with (String line_feed EmptyString).
    apply split_on_join; [done |]. apply Forall_cons. split.
    + rewrite !free_of_app. split_and!.
      * by vm_compute.
      * apply pretty_free_of_Z, line_feed_not_numeral.
      * by vm_compute.
      * apply numeral_free_of; [apply line_feed_not_numeral |].
        apply pretty_N_numeral.
    + apply Forall_fmap, Forall_forall. intros cl _.
      apply clause_line_free_of_line_feed.
  - intros cl Hcl.
    change (join " " (pretty <$> cl) +:+ " 0")
      with (join " " (pretty <$> cl) +:+ " " +:+ "0").
    rewrite <- join_snoc by (by destruct cl).
    change (" " : string) with (String space EmptyString).
    apply split_on_join; [by destruct cl |].
    apply Forall_app. split.
    + apply Forall_fmap, Forall_forall. intros lit _.
      apply pretty_free_of_Z, space_not_numeral.
    + apply Forall_cons. split; [by vm_compute | done].
Qed.

Lemma dimacs_text_layout_witness :
  split_on space (join " " (pretty <$> [1; -2]) +:+ " 0")
  = (pretty <$> [1; -2]) ++ ["0"].
Proof.
  apply (proj2 (dimacs_text_layout [[1; -2]] 2)). discriminate.
Defined.

(** * Systems whose rows are each of one sign *)

Lemma dot_take (row x : list Z) : dot row x = dot (take (length x) row) x.
Proof.
  revert x. induction row as [|a row IH]; intros [|x0 x]; try done.
  cbn [length take]. by rewrite !dot_cons, <- IH.
Qed.

Lemma vector_of_lookup (v : Z → bool) (n i : nat) :
  (i < n)%nat →
  vector_of v n !! i = Some (if v (Z.of_nat i + 1) then 1 else 0).
Proof.
  intros Hi. unfold vector_of. rewrite list_lookup_fmap, lookup_seq_lt by done.
  done.
Qed.

Lemma vector_of_bits (v : Z → bool) (n : nat) :
  Forall (λ xi, xi = 0 ∨ xi = 1) (vector_of v n).
Proof.
  apply Forall_fmap, Forall_forall. intros i _. cbn.
  destruct (v (Z.of_nat i + 1)); auto.
Qed.

(** The sum the clauses count is the dot product of the absolute
    coefficients with the vector of the assignment. *)
Lemma selected_sum_dot (v : Z → bool) (n : nat) (row : list Z) :
  (n ≤ length row)%nat →
  selected_sum v n row = dot (Z.abs <$> row) (vector_of v n).
Proof.
  intros Hn.
  assert (length (vector_of v n) = n) as Hlen
    by (unfold vector_of; by rewrite length_fmap, length_seq).
  rewrite (dot_take (Z.abs <$> row)), Hlen, <- fmap_take.
  rewrite <- bsum_dot;
    [| apply vector_of_bits | by rewrite Hlen, length_take_le].
  unfold selected_sum. apply bsum_ext. intros i Hi.
  rewrite length_take_le in Hi by done.
  rewrite vector_of_lookup by lia.
  destruct (v (Z.of_nat i + 1)).
  - by rewrite bool_decide_eq_true_2.
  - by rewrite bool_decide_eq_false_2.
Qed.

(** For a row of one sign, the inequality the clauses express implies the
    constraint itself. *)
Lemma same_sign_implies_direct (row x : list Z) (bound : Z) :
  Forall (λ xi, xi = 0 ∨ xi = 1) x →
  Forall (λ a, 0 ≤ a) row ∨ Forall (λ a, a ≤ 0) row →
  (if bound <? 0 then normalized_bound row bound ≤ dot (Z.abs <$> row) x
   else dot (Z.abs <$> row) x ≤ normalized_bound row bound) →
  dot row x ≤ bound.
Proof.
  intros Hbits Hsign. unfold normalized_bound.
  pose proof (dot_abs_bounds row x Hbits) as Hd.
  destruct (same_sign_sums row) as [Hpos_s Hneg_s].
  destruct (same_sign_dot row x) as [Hpos_d Hneg_d].
  destruct Hsign as [Hpos|Hneg].
  - destruct (Hpos_s Hpos) as [-> ->]. rewrite (Hpos_d Hpos).
    destruct (Z.ltb_spec bound 0); lia.
  - destruct (Hneg_s Hneg) as [-> ->]. rewrite (Hneg_d Hneg).
    destruct (Z.ltb_spec bound 0); lia.
Qed.

(** X16: for a system, of any number of constraints, in which the
    coefficients of each row are all of one sign, the encoding accepts no
    infeasible point: the 0/1 vector that an assignment satisfying the
    returned clauses gives to the original variables satisfies
    [Ax <= b]. *)
Theorem same_sign_system_sound (row0 : list Z) (rest : matrix) (b : list Z)
    (cls : list clause) (A' : matrix) (v : Z → bool) :
  row0 ≠ [] →
  let A := row0 :: rest in
  Forall (λ row, Forall (λ a, 0 ≤ a) row ∨ Forall (λ a, a ≤ 0) row) A →
  encode_ilp_to_sat A b = (Ok cls, A') →
  cnf_true v cls = true →
  satisfies_ilp A b (vector_of v (length row0)) = true.
Proof.
  intros Hne A Hsigns Hrun Hsat. subst A.
  pose proof (encode_is_ok_shape row0 rest b Hne) as [Hshape _].
  cbv zeta in Hshape. rewrite Hrun in Hshape.
  destruct (Hshape eq_refl) as [_ Hrows].
  unfold satisfies_ilp. apply forallb_forall.
  intros [row bound] Hin%list_elem_of_In. cbn [fst snd].
  apply list_elem_of_lookup in Hin as [c Hc].
  apply lookup_zip_with_Some in Hc as (row' & bound' & [= <- <-] & Hrow & Hbound).
  apply Z.leb_le.
  pose proof (system_sound row0 rest b cls A' v Hne Hrun Hsat c row bound
                Hrow Hbound) as Hcmp.
  rewrite Forall_lookup in Hsigns, Hrows.
  rewrite selected_sum_dot in Hcmp by (by eapply Hrows).
  by eapply same_sign_implies_direct;
    [apply vector_of_bits | eapply Hsigns | exact Hcmp].
Qed.

Lemma same_sign_system_sound_witness :
  let v : Z → bool := λ k, bool_decide (k ∈ [2; 3; 5; 8; 12; 14; 17; 21]) in
  satisfies_ilp [[1; 1]; [-1; -1]] [1; -1] (vector_of v 2) = true.
Proof.
  apply (same_sign_system_sound [1; 1] [[-1; -1]] [1; -1]
           (clauses_of (encode_ilp_to_sat [[1; 1]; [-1; -1]] [1; -1]))
           (encode_ilp_to_sat [[1; 1]; [-1; -1]] [1; -1]).2).
  - discriminate.
  - repeat constructor; lia.
  - vm_compute. reflexivity.
  - vm_compute. reflexivity.
Defined.
